(** * Strata desktop client: delta reconciler, tag stream parser, session
    store and generation controller.

    Shallow embedding of
    - [apps/desktop/src/hooks/useLLM.ts]     (trimOverlap, appendDeltaToLast,
                                              sendMessage and its handlers)
    - [apps/desktop/src/lib/events.ts]       (safeUnlisten)
    - [apps/desktop/src/components/ChatTranscript.tsx]
                                             (stripThinkTags, extractThinkStreaming)
    - [apps/desktop/src/hooks/useModels.ts]  (loadRecentIds, saveRecentIds,
                                              recordRecent, select, refresh,
                                              importFromDialog)

    JavaScript strings are sequences of UTF-16 code units; they are modelled
    as [list N], one [N] per code unit.  String literals of the source are
    written with [js "..."]. *)

From Stdlib Require Import String Ascii.
From Stdlib Require Import List Bool Arith Lia NArith.
Import ListNotations.

(* ================================================================== *)
(** ** JavaScript strings *)

Definition jstr := list N.

Definition js (s : String.string) : jstr :=
  map N_of_ascii (String.list_ascii_of_string s).
Arguments js s%_string_scope.

(** [a === b] on strings. *)
Definition jstr_eqb (a b : jstr) : bool :=
  if list_eq_dec N.eq_dec a b then true else false.

(** Truthiness of a string: [!s] holds exactly for [""]. *)
Definition truthy (s : jstr) : bool :=
  match s with [] => false | _ => true end.

(** [s.startsWith(p)] *)
Fixpoint prefixb (p s : jstr) : bool :=
  match p, s with
  | [], _ => true
  | _ :: _, [] => false
  | a :: p', b :: s' => N.eqb a b && prefixb p' s'
  end.

(** [s.slice(-n)] for [n > 0]: the last [min n (length s)] code units. *)
Definition slice_last (s : jstr) (n : nat) : jstr :=
  skipn (length s - n) s.

(** [s.indexOf(pat, from)] for a non-empty [pat]; [None] stands for [-1]. *)
Fixpoint index_from (pat s : jstr) (i : nat) : option nat :=
  if prefixb pat s then Some i
  else match s with
       | [] => None
       | _ :: t => index_from pat t (S i)
       end.

Definition indexOf (s pat : jstr) (from : nat) : option nat :=
  index_from pat (skipn from s) from.

(** [s.slice(a, b)] for [0 <= a <= b]. *)
Definition slice (s : jstr) (a b : nat) : jstr :=
  firstn (b - a) (skipn a s).

(** [String.prototype.trim]: WhiteSpace and LineTerminator code points of
    ECMAScript (all of them lie in the BMP). *)
Definition is_ws (c : N) : bool :=
  existsb (N.eqb c)
    [9; 10; 11; 12; 13; 32; 160; 5760; 8232; 8233; 8239; 8287; 12288; 65279]%N
  || ((8192 <=? c)%N && (c <=? 8202)%N).

Fixpoint drop_ws (s : jstr) : jstr :=
  match s with
  | c :: t => if is_ws c then drop_ws t else s
  | [] => []
  end.

Definition trim (s : jstr) : jstr := rev (drop_ws (rev (drop_ws s))).

(* ================================================================== *)
(** ** Regular-expression replacements used by the source

    A global regex replacement scans left to right; at each position it
    tries the pattern, replaces a match and resumes after it, or copies one
    code unit and moves on.  Recursion is bounded by a fuel argument that
    the wrappers set to the length of the input. *)

(** [s.replace(/M/g, rep)] *)
Fixpoint replace_each_fuel (fuel : nat) (m rep s : jstr) : jstr :=
  match fuel with
  | 0 => s
  | S f =>
      match s with
      | [] => []
      | c :: t =>
          if prefixb m s then rep ++ replace_each_fuel f m rep (skipn (length m) s)
          else c :: replace_each_fuel f m rep t
      end
  end.

Definition replace_each (m rep s : jstr) : jstr :=
  replace_each_fuel (length s) m rep s.

(** Greedy match of [(?:M)*] at the head of [s]: the number of copies of [M]
    and what follows them. *)
Fixpoint strip_run (fuel : nat) (m s : jstr) : nat * jstr :=
  match fuel with
  | 0 => (0, s)
  | S f =>
      if prefixb m s then
        let '(k, r) := strip_run f m (skipn (length m) s) in (S k, r)
      else (0, s)
  end.

(** [s.replace(/(?:M){min,}/g, rep)] for [min >= 1]. *)
Fixpoint replace_runs_fuel (fuel : nat) (m : jstr) (min : nat) (rep s : jstr) : jstr :=
  match fuel with
  | 0 => s
  | S f =>
      match s with
      | [] => []
      | c :: t =>
          let '(k, r) := strip_run (length s) m s in
          if min <=? k then rep ++ replace_runs_fuel f m min rep r
          else c :: replace_runs_fuel f m min rep t
      end
  end.

Definition replace_runs (m : jstr) (min : nat) (rep s : jstr) : jstr :=
  replace_runs_fuel (length s) m min rep s.

(* ================================================================== *)
(** ** Delta reconciler (useLLM.ts) *)

Definition OPEN : jstr := js "<think>".
Definition CLOSE : jstr := js "</think>".

(** The loop [for (let len = maxLen; len > 0; len--)] of [trimOverlap]. *)
Fixpoint overlap_loop (window delta : jstr) (len : nat) : jstr :=
  match len with
  | 0 => delta
  | S l =>
      if jstr_eqb (slice_last window len) (firstn len delta) then skipn len delta
      else overlap_loop window delta l
  end.

(** [trimOverlap(prev, delta, maxWindow = 200)] *)
Definition trimOverlap_w (maxWindow : nat) (prev delta : jstr) : jstr :=
  if negb (truthy prev) || negb (truthy delta) then delta
  else
    let window := slice_last prev maxWindow in
    let maxLen := Nat.min (length window) (length delta) in
    overlap_loop window delta maxLen.

Definition trimOverlap (prev delta : jstr) : jstr := trimOverlap_w 200 prev delta.

(** [delta.replace(/(?:<think>){2,}/g, "<think>").replace(/(?:<\/think>){2,}/g, "</think>")] *)
Definition collapse_markers (delta : jstr) : jstr :=
  replace_runs CLOSE 2 CLOSE (replace_runs OPEN 2 OPEN delta).

(* ================================================================== *)
(** ** JavaScript values thrown by awaited calls *)

Inductive jsval :=
| JsString (s : jstr)
| JsError (name message : jstr)   (* an [Error] object *)
| JsNull
| JsUndefined.

(** [String(v)]; for an error object this is [Error.prototype.toString]. *)
Definition js_String (v : jsval) : jstr :=
  match v with
  | JsString s => s
  | JsError name msg =>
      if negb (truthy name) then msg
      else if negb (truthy msg) then name
      else name ++ js ": " ++ msg
  | JsNull => js "null"
  | JsUndefined => js "undefined"
  end.

(** Outcome of an awaited promise. *)
Inductive res (A : Type) :=
| Ok (a : A)
| Thrown (e : jsval).
Arguments Ok {A} a.
Arguments Thrown {A} e.

(* ================================================================== *)
(** ** State of the [useLLM] hook

    [messages] is React state holding an array; arrays are compared by
    reference, so an array carries a reference [arr_id].  [const out =
    [...prev]] allocates a fresh reference from [next_ref].  A state setter
    whose updater returns the same reference bails out; any other result is
    committed and counted in [msg_updates] (it re-renders the transcript,
    which re-parses every turn).  [listeners] are the live event
    subscriptions of the event transport; the two [useRef]s hold the
    unlisten handles. *)

Record Message := mkMessage { user : jstr; ai : option jstr }.

Record Arr := mkArr { arr_id : nat; items : list Message }.

Inductive channel := ChStream | ChComplete.

Record St := mkSt {
  messages : Arr;
  next_ref : nat;
  msg_updates : nat;
  input : jstr;
  isGenerating : bool;
  streamingEnabled : bool;
  unlistenStreamRef : option nat;
  unlistenDoneRef : option nat;
  listeners : list (nat * channel);
  next_handle : nat
}.

(** An updater [prev => ...] for [setMessages]: it sees the previous array
    and the allocator, and returns the new array and the allocator. *)
Definition Updater := Arr -> nat -> Arr * nat.

Definition setMessages (f : Updater) (s : St) : St :=
  let '(a, n) := f (messages s) (next_ref s) in
  if Nat.eqb (arr_id a) (arr_id (messages s)) then s
  else mkSt a n (S (msg_updates s)) (input s) (isGenerating s) (streamingEnabled s)
         (unlistenStreamRef s) (unlistenDoneRef s) (listeners s) (next_handle s).

Definition setIsGenerating (b : bool) (s : St) : St :=
  mkSt (messages s) (next_ref s) (msg_updates s) (input s) b (streamingEnabled s)
    (unlistenStreamRef s) (unlistenDoneRef s) (listeners s) (next_handle s).

Definition setInput (i : jstr) (s : St) : St :=
  mkSt (messages s) (next_ref s) (msg_updates s) i (isGenerating s) (streamingEnabled s)
    (unlistenStreamRef s) (unlistenDoneRef s) (listeners s) (next_handle s).

Definition setRefs (us ud : option nat) (s : St) : St :=
  mkSt (messages s) (next_ref s) (msg_updates s) (input s) (isGenerating s)
    (streamingEnabled s) us ud (listeners s) (next_handle s).

Definition setListeners (ls : list (nat * channel)) (s : St) : St :=
  mkSt (messages s) (next_ref s) (msg_updates s) (input s) (isGenerating s)
    (streamingEnabled s) (unlistenStreamRef s) (unlistenDoneRef s) ls (next_handle s).

(** [out[out.length - 1] = x] on a non-empty array. *)
Definition set_last (l : list Message) (x : Message) : list Message :=
  removelast l ++ [x].

Definition default_msg : Message := mkMessage [] None.

(** [last.ai || ""] *)
Definition ai_or_empty (m : Message) : jstr :=
  match ai m with Some a => a | None => [] end.

Definition with_ai (m : Message) (a : jstr) : Message := mkMessage (user m) (Some a).

(** [appendDeltaToLast(incoming)] *)
Definition appendDeltaToLast (incoming : jstr) (s : St) : St :=
  if negb (truthy incoming) then s
  else setMessages (fun prev fresh =>
    match items prev with
    | [] => (prev, fresh)                                   (* return prev *)
    | out =>
        (* [last] is always an object here: [if (!last) return out] never fires *)
        let last := List.last out default_msg in
        let current := ai_or_empty last in
        let delta := collapse_markers (trimOverlap current incoming) in
        if negb (truthy delta) then (mkArr fresh out, S fresh)   (* return out *)
        else (mkArr fresh (set_last out (with_ai last (current ++ delta))), S fresh)
    end) s.

(** The [unlisten] function of a subscription: it removes the listener; on a
    subscription that is no longer live it is taken to throw (the worst
    case; [safeUnlisten] makes both cases equal). *)
Definition unlisten (h : nat) (s : St) : res St :=
  if existsb (fun l => Nat.eqb (fst l) h) (listeners s)
  then Ok (setListeners (filter (fun l => negb (Nat.eqb (fst l) h)) (listeners s)) s)
  else Thrown (JsError (js "Error") (js "unknown listener")).

(** [safeUnlisten(un)] (events.ts) *)
Definition safeUnlisten (un : option nat) (s : St) : St :=
  match un with
  | None => s
  | Some h => match unlisten h s with Ok s' => s' | Thrown _ => s end
  end.

(** The updater [prev => { ...; out[last] = { ...last, ai: text }; ... }]
    guarded by [if (prev.length === 0) return prev]. *)
Definition set_last_ai (text : jstr) : Updater :=
  fun prev fresh =>
    match items prev with
    | [] => (prev, fresh)
    | out => (mkArr fresh (set_last out (with_ai (List.last out default_msg) text)), S fresh)
    end.

(** The handler passed to [onLLMComplete] in [sendMessage]. *)
Definition onComplete (finalText : jstr) (s : St) : St :=
  let s1 := if truthy finalText then setMessages (set_last_ai finalText) s else s in
  let s2 := setIsGenerating false s1 in
  let s3 := safeUnlisten (unlistenStreamRef s2) s2 in
  let s4 := safeUnlisten (unlistenDoneRef s3) s3 in
  setRefs None None s4.

(** Push events and their delivery to every live listener of the channel
    ([e.payload?.delta ?? ""], [e.payload?.text ?? ""]). *)
Inductive event :=
| StreamDelta (delta : option jstr)
| StreamComplete (text : option jstr).

Definition deliver (ev : event) (s : St) : St :=
  fold_left (fun s' (l : nat * channel) =>
    match ev, snd l with
    | StreamDelta d, ChStream => appendDeltaToLast (match d with Some x => x | None => [] end) s'
    | StreamComplete t, ChComplete => onComplete (match t with Some x => x | None => [] end) s'
    | _, _ => s'
    end) (listeners s) s.

(** [await onLLMStream(...)] / [await onLLMComplete(...)]: on success a new
    subscription is registered on the channel and its handle returned. *)
Definition listen (ch : channel) (o : res unit) (s : St) : res (nat * St) :=
  match o with
  | Ok _ =>
      let h := next_handle s in
      Ok (h, mkSt (messages s) (next_ref s) (msg_updates s) (input s) (isGenerating s)
               (streamingEnabled s) (unlistenStreamRef s) (unlistenDoneRef s)
               (listeners s ++ [(h, ch)]) (S h))
  | Thrown e => Thrown e
  end.

(** What the backend does during one [sendMessage]: the outcome of each
    awaited call, and the push events delivered while [runLLMStream] is
    pending. *)
Record Backend := mkBackend {
  b_listen_stream : res unit;
  b_listen_done : res unit;
  b_events : list event;
  b_run_stream : res unit;
  b_run_llm : res jstr
}.

Definition error_text (e : jsval) : jstr := js "[ERROR] " ++ js_String e.

(** The [catch (err)] block of the streaming path. *)
Definition catch_stream (e : jsval) (s : St) : St :=
  let s1 := setMessages (set_last_ai (error_text e)) s in
  let s2 := setIsGenerating false s1 in
  let s3 := safeUnlisten (unlistenStreamRef s2) s2 in
  let s4 := safeUnlisten (unlistenDoneRef s3) s3 in
  setRefs None None s4.

(** [sendMessage()]: the final state and the outcome of the returned
    promise. *)
Definition sendMessage (b : Backend) (s : St) : St * res unit :=
  let prompt := trim (input s) in
  if negb (truthy prompt) || isGenerating s then (s, Ok tt)
  else
    let s0 := setMessages (fun prev fresh =>
                (mkArr fresh (items prev ++
                   [mkMessage prompt (Some (if streamingEnabled s then [] else js "Typing..."))]),
                 S fresh)) s in
    let s0 := setIsGenerating true (setInput [] s0) in
    if negb (streamingEnabled s) then
      let s1 :=
        match b_run_llm b with
        | Ok response =>
            setMessages (fun prev fresh =>
              match items prev with
              | [] => (mkArr fresh [], S fresh)
              | out => (mkArr fresh (set_last out (with_ai (List.last out default_msg) response)),
                        S fresh)
              end) s0
        | Thrown e => setMessages (set_last_ai (error_text e)) s0
        end in
      (setIsGenerating false s1, Ok tt)                       (* finally *)
    else
      match listen ChStream (b_listen_stream b) s0 with
      | Thrown e => (catch_stream e s0, Ok tt)
      | Ok (h1, s1) =>
          let s1 := setRefs (Some h1) (unlistenDoneRef s1) s1 in
          match listen ChComplete (b_listen_done b) s1 with
          | Thrown e => (catch_stream e s1, Ok tt)
          | Ok (h2, s2) =>
              let s2 := setRefs (unlistenStreamRef s2) (Some h2) s2 in
              let s3 := fold_left (fun st ev => deliver ev st) (b_events b) s2 in
              match b_run_stream b with
              | Ok _ => (s3, Ok tt)
              | Thrown e => (catch_stream e s3, Ok tt)
              end
          end
      end.

(** [newChat()]: [setMessages([])] commits a new empty array;
    [setInput("")]. *)
Definition newChat (s : St) : St :=
  setInput [] (setMessages (fun _ fresh => (mkArr fresh [], S fresh)) s).

(** A state before any message: empty transcript, no subscription. *)
Definition init_st (inp : jstr) (streaming : bool) : St :=
  mkSt (mkArr 0 []) 1 0 inp false streaming None None [] 0.

Definition last_ai (s : St) : option jstr :=
  ai (List.last (items (messages s)) default_msg).

(* ================================================================== *)
(** ** Tag stream parser (ChatTranscript.tsx) *)

(** [stripThinkTags(s)] *)
Definition stripThinkTags (s : jstr) : jstr :=
  replace_each CLOSE [] (replace_each OPEN [] s).

(** [think.replace(/(?:<think>)+/g, "").replace(/<\/think>/g, "")] *)
Definition clean_think (t : jstr) : jstr :=
  replace_each CLOSE [] (replace_runs OPEN 1 [] t).

Record TagParse := mkParse { think : option jstr; visible : jstr; isOpen : bool }.

(** [extractThinkStreaming(s)] *)
Definition extractThinkStreaming (s : jstr) : TagParse :=
  match indexOf s OPEN 0 with
  | None => mkParse None (stripThinkTags s) false
  | Some openIdx =>
      match indexOf s CLOSE (openIdx + length OPEN) with
      | None =>
          let think := clean_think (skipn (openIdx + length OPEN) s) in
          let visiblePrefix := slice s 0 openIdx in
          mkParse (Some (trim think)) (trim (stripThinkTags visiblePrefix)) true
      | Some closeIdx =>
          let think := clean_think (slice s (openIdx + length OPEN) closeIdx) in
          let visibleRest := skipn (closeIdx + length CLOSE) s in
          let visible := stripThinkTags (slice s 0 openIdx ++ visibleRest) in
          mkParse (Some (trim think)) (trim visible) false
      end
  end.

(* ================================================================== *)
(** ** Session store (useModels.ts) *)

Record ModelEntry := mkEntry {
  id : jstr; name : jstr; path : jstr; backend_hint : jstr; file_type : jstr;
  family : option jstr
}.

(** The value under [RECENT_KEY] in [localStorage], as seen by [JSON.parse]. *)
Inductive json := JStr (s : jstr) | JOther.

Inductive blob :=
| Absent                       (* getItem returns null or "" *)
| Malformed                    (* JSON.parse throws *)
| JsonNonArray                 (* valid JSON, not an array *)
| JsonArray (l : list json).

Definition MAX_RECENT := 5.

Definition json_str (j : json) : list jstr :=
  match j with JStr s => [s] | JOther => [] end.

(** [loadRecentIds()] *)
Definition loadRecentIds (b : blob) : list jstr :=
  match b with
  | JsonArray l => flat_map json_str l        (* arr.filter(x => typeof x === "string") *)
  | _ => []
  end.

(** [JSON.stringify(ids.slice(0, MAX_RECENT))] *)
Definition saveRecentIds (ids : list jstr) : blob :=
  JsonArray (map JStr (firstn MAX_RECENT ids)).

Record Store := mkStore {
  models : list ModelEntry;
  selectedModel : option ModelEntry;
  loading : bool;
  error : option jstr;
  recentIds : list jstr;
  stored : blob;             (* localStorage[RECENT_KEY] *)
  storage_writable : bool    (* setItem does not throw *)
}.

(** State of a freshly mounted hook: [useState(() => loadRecentIds())]. *)
Definition mount (b : blob) (writable : bool) : Store :=
  mkStore [] None true None (loadRecentIds b) b writable.

(** [recordRecent(id)] *)
Definition recordRecent (x : jstr) (st : Store) : Store :=
  let next := x :: filter (fun y => negb (jstr_eqb y x)) (recentIds st) in
  mkStore (models st) (selectedModel st) (loading st) (error st) next
    (if storage_writable st then saveRecentIds next else stored st)
    (storage_writable st).

(** [select(m)]: [setActiveModelCmd] failures are only logged. *)
Definition select (m : ModelEntry) (st : Store) : Store :=
  recordRecent (id m)
    (mkStore (models st) (Some m) (loading st) (error st) (recentIds st) (stored st)
       (storage_writable st)).

(** Answers of the backend commands used by the store. *)
Record ModelsBackend := mkModelsBackend {
  mb_list : res (list ModelEntry);        (* get_model_list *)
  mb_active : res (option jstr);          (* get_active_model *)
  mb_import : jstr -> res ModelEntry      (* import_model, per source path *)
}.

(** [new Map(list.map(m => [m.id, m]))]: [has] and [get] (the last entry
    with a given key wins). *)
Definition byId_has (l : list ModelEntry) (k : jstr) : bool :=
  existsb (fun m => jstr_eqb (id m) k) l.

Definition byId_get (l : list ModelEntry) (k : jstr) : option ModelEntry :=
  fold_left (fun acc m => if jstr_eqb (id m) k then Some m else acc) l None.

Definition truthy_opt (o : option jstr) : bool :=
  match o with Some s => truthy s | None => false end.

(** The choice of [pick] inside [refresh()], for a non-empty [list] ([lst] here). *)
Definition pick_model (lst : list ModelEntry) (activeId : option jstr) (recent : list jstr)
  : option ModelEntry :=
  let fallback :=
    let firstRecent := find (byId_has lst) recent in
    (* [(firstRecent && byId.get(firstRecent)) || list[0]] *)
    match firstRecent with
    | Some r => if truthy r then
                  match byId_get lst r with Some m => Some m | None => hd_error lst end
                else hd_error lst
    | None => hd_error lst
    end in
  match activeId with
  | Some a => if truthy a && byId_has lst a then byId_get lst a else fallback
  | None => fallback
  end.

Definition set_models (l : list ModelEntry) (st : Store) : Store :=
  mkStore l (selectedModel st) (loading st) (error st) (recentIds st) (stored st)
    (storage_writable st).

Definition set_selected (m : option ModelEntry) (st : Store) : Store :=
  mkStore (models st) m (loading st) (error st) (recentIds st) (stored st)
    (storage_writable st).

Definition set_loading_error (l : bool) (e : option jstr) (st : Store) : Store :=
  mkStore (models st) (selectedModel st) l e (recentIds st) (stored st)
    (storage_writable st).

(** [refresh()] *)
Definition refresh (mb : ModelsBackend) (st : Store) : Store :=
  let st := set_loading_error true None st in
  let on_error (e : jsval) :=                     (* catch (e); finally *)
    mkStore [] None false (Some (js_String e)) (recentIds st) (stored st)
      (storage_writable st) in
  match mb_list mb with
  | Thrown e => on_error e
  | Ok lst =>
      let st := set_models lst st in
      match lst with
      | [] => set_loading_error false (error st) (set_selected None st)
      | _ =>
          match mb_active mb with
          | Thrown e => on_error e
          | Ok activeId =>
              let st := match pick_model lst activeId (loadRecentIds (stored st)) with
                        | Some m => select m st
                        | None => st
                        end in
              set_loading_error false (error st) st
          end
      end
  end.

(** [importFromDialog()].  [picked] is what the file dialog returns ([None]
    when cancelled); [models_closure] is the value of [models] captured by
    the callback when it was created.  The outcome is that of the returned
    promise. *)
Definition importFromDialog (picked : option (list jstr)) (models_closure : list ModelEntry)
    (mb : ModelsBackend) (st : Store) : Store * res unit :=
  match picked with
  | None => (st, Ok tt)
  | Some files =>
      let lastImported :=
        fold_left (fun acc srcPath =>
          match mb_import mb srcPath with
          | Ok entry => Some (id entry)
          | Thrown _ => acc                       (* console.error, continue *)
          end) files None in
      let st := refresh mb st in
      match lastImported with
      | Some li =>
          if truthy li then
            let lst := match models_closure with
                       | [] => mb_list mb                      (* await getModelList() *)
                       | _ => Ok models_closure
                       end in
            match lst with
            | Thrown e => (st, Thrown e)
            | Ok l =>
                match find (fun m => jstr_eqb (id m) li) l with
                | Some entry => (select entry st, Ok tt)
                | None => (st, Ok tt)
                end
            end
          else (st, Ok tt)
      | None => (st, Ok tt)
      end
  end.

(** The [seen]-set filter of the [recent] memo: the first entry of each id
    is kept. *)
Fixpoint dedup_seen (seen : list jstr) (l : list ModelEntry) : list ModelEntry :=
  match l with
  | [] => []
  | m :: t =>
      if existsb (jstr_eqb (id m)) seen then dedup_seen seen t
      else m :: dedup_seen (id m :: seen) t
  end.

(** The [recent] memo of [useModels]. *)
Definition recent_memo (models : list ModelEntry) (recentIds : list jstr) : list ModelEntry :=
  match models, recentIds with
  | [], _ | _, [] => []
  | _, _ =>
      (* recentIds.map(id => byId.get(id)).filter(Boolean) *)
      let ordered := flat_map (fun i => match byId_get models i with
                                        | Some m => [m] | None => [] end) recentIds in
      firstn MAX_RECENT (dedup_seen [] ordered)
  end.

(** A run of [select] calls, oldest first. *)
Definition select_seq (ms : list ModelEntry) (st : Store) : Store :=
  fold_left (fun st m => select m st) ms st.

(** The list without repetitions, keeping the first occurrence of each id. *)
Fixpoint undup (l : list jstr) : list jstr :=
  match l with
  | [] => []
  | x :: t => x :: filter (fun y => negb (jstr_eqb y x)) (undup t)
  end.

(* ================================================================== *)
(** ** Notions used by the proofs and the examples *)

(** A transcript of one turn whose assistant text is [P], no subscription. *)
Definition st_with_last (P : jstr) : St :=
  mkSt (mkArr 0 [mkMessage (js "hi") (Some P)]) 1 0 [] true true None None [] 0.

(** [s.startsWith(p)] as a proposition. *)
Definition starts (p s : jstr) : Prop := exists z, s = p ++ z.

(** [s.replace(/(?:M){2,}/g, M)] *)
Definition collapse (m s : jstr) : jstr := replace_runs m 2 m s.

(** Every way of cutting [m] in two. *)
Definition splits (m : jstr) : list (jstr * jstr) :=
  map (fun i => (firstn i m, skipn i m)) (seq 0 (S (length m))).

(** No proper non-empty suffix of [m] is a prefix of [m]. *)
Definition no_border_b (m : jstr) : bool :=
  forallb (fun '(p, a) => negb (truthy p) || negb (truthy a) || negb (prefixb a m))
    (splits m).

(** No non-empty suffix of [c] is compatible with [q]. *)
Definition apart_b (c q : jstr) : bool :=
  forallb (fun '(_, a) => negb (truthy a) || (negb (prefixb a q) && negb (prefixb q a)))
    (splits c).

(** Reachable states: the current array was allocated before [next_ref]. *)
Definition WF (s : St) : Prop := arr_id (messages s) < next_ref s.

(** The subscription with handle [h] is still registered. *)
Definition live (h : nat) (s : St) : Prop := In h (map fst (listeners s)).

(** A turn being streamed into, with both subscriptions live. *)
Definition st_streaming (P : jstr) : St :=
  mkSt (mkArr 0 [mkMessage (js "hi") (Some P)]) 1 0 [] true true (Some 0) (Some 1)
    [(0, ChStream); (1, ChComplete)] 2.

(** What holds of the transcript and the subscriptions while the turn of a
    send (prompt [u], earlier turns [pre]) is in flight: the subscriptions
    made by this send (handles from [n0] on) are those held in the refs. *)
Definition Inv (n0 : nat) (pre : list Message) (u : jstr) (s : St) : Prop :=
  WF s /\ (exists a, items (messages s) = pre ++ [mkMessage u a])
  /\ (forall l, In l (listeners s) ->
        fst l < n0 \/ unlistenStreamRef s = Some (fst l) \/ unlistenDoneRef s = Some (fst l)).

(** A catalog entry for examples. *)
Definition sample_entry (i : jstr) : ModelEntry :=
  mkEntry i i (i ++ js ".gguf") (js "llama") (js "gguf") None.

(** A store backend with catalog [lst] whose imports all fail. *)
Definition backend_of (lst : list ModelEntry) (active : res (option jstr)) : ModelsBackend :=
  mkModelsBackend (Ok lst) active (fun _ => Thrown (JsError (js "Error") (js "import failed"))).

(** A backend whose import of ["/n.gguf"] yields the entry [n] and whose
    other imports fail; after the import the catalog is [A; n] and [A] is
    the active model. *)
Definition import_backend : ModelsBackend :=
  mkModelsBackend (Ok [sample_entry (js "A"); sample_entry (js "n")]) (Ok (Some (js "A")))
    (fun p => if jstr_eqb p (js "/n.gguf") then Ok (sample_entry (js "n"))
              else Thrown (JsError (js "Error") (js "unsupported file"))).

(* ================================================================== *)
(** * Proofs *)

Lemma jstr_eqb_true a b : jstr_eqb a b = true <-> a = b.
Proof.
  unfold jstr_eqb; destruct (list_eq_dec N.eq_dec a b); split; congruence.
Qed.

Example trimOverlap_quick :
  trimOverlap (js "...The quick") (js "quick brown fox") = js " brown fox".
Proof. vm_compute. reflexivity. Qed.

Example collapse_markers_ex :
  collapse_markers (js "<think><think><think>Okay</think></think>x")
  = js "<think>Okay</think>x".
Proof. vm_compute. reflexivity. Qed.

Example stream_session_ex :
  let b := mkBackend (Ok tt) (Ok tt)
             [StreamDelta (Some (js "<think><think>Okay")); StreamDelta (Some (js "Okay so"));
              StreamDelta (Some (js "so</think>Hi")); StreamComplete (Some (js "final"))]
             (Ok tt) (Ok []) in
  let s := fst (sendMessage b (init_st (js " hello ") true)) in
  last_ai s = Some (js "final") /\ isGenerating s = false /\ listeners s = []
  /\ user (List.last (items (messages s)) default_msg) = js "hello".
Proof. vm_compute. repeat split; reflexivity. Qed.

Example stream_deltas_ex :
  let b := mkBackend (Ok tt) (Ok tt)
             [StreamDelta (Some (js "<think><think>Okay")); StreamDelta (Some (js "Okay so"));
              StreamDelta (Some (js "so</think>Hi"))]
             (Ok tt) (Ok []) in
  last_ai (fst (sendMessage b (init_st (js "hello") true)))
  = Some (js "<think>Okay so</think>Hi").
Proof. vm_compute. reflexivity. Qed.


(* ------------------------------------------------------------------ *)
(** ** Overlap search of [trimOverlap] *)

Lemma overlap_loop_spec (w F : jstr) (n : nat) :
  exists L, overlap_loop w F n = skipn L F /\ L <= n
    /\ (L = 0 \/ (0 < L /\ slice_last w L = firstn L F))
    /\ (forall L', L < L' <= n -> slice_last w L' <> firstn L' F).
Proof.
  induction n as [|n IH]; cbn [overlap_loop].
  - exists 0. split; [reflexivity|]. split; [lia|]. split; [left; reflexivity|].
    intros; lia.
  - destruct (jstr_eqb (slice_last w (S n)) (firstn (S n) F)) eqn:E.
    + apply jstr_eqb_true in E. exists (S n).
      split; [reflexivity|]. split; [lia|]. split.
      * right. split; [lia | exact E].
      * intros; lia.
    + destruct IH as (L & HL & Hle & Hm & Hmax). exists L.
      split; [exact HL|]. split; [lia|]. split; [exact Hm|].
      intros L' HL' Heq. destruct (Nat.eq_dec L' (S n)) as [->|Hne].
      * rewrite <- Heq in E. unfold jstr_eqb in E.
        destruct (list_eq_dec N.eq_dec _ _); congruence.
      * apply (Hmax L'); auto; lia.
Qed.

Lemma slice_last_slice_last (P : jstr) (W L : nat) :
  L <= length (slice_last P W) -> slice_last (slice_last P W) L = slice_last P L.
Proof.
  unfold slice_last. intros H. rewrite length_skipn in *.
  rewrite skipn_skipn. f_equal. lia.
Qed.

Lemma length_slice_last (P : jstr) (W : nat) :
  length (slice_last P W) = Nat.min W (length P).
Proof. unfold slice_last. rewrite length_skipn. lia. Qed.

(** C2. For every accumulated text [P] and fragment [F], [trimOverlap P F]
    drops the first [L] code units of [F], where [L] is the largest value
    from [min(200, len P, len F)] down to 1 such that the last [L] units of
    [P] equal the first [L] units of [F], and [L = 0] when there is none.
    Reconciling ["...The quick"] with ["quick brown fox"] finds [L = 5] and
    yields ["...The quick brown fox"]. *)
Theorem trimOverlap_longest_overlap :
  (forall P F : jstr,
    exists L, trimOverlap P F = skipn L F
      /\ L <= Nat.min 200 (Nat.min (length P) (length F))
      /\ (L = 0 \/ (0 < L /\ slice_last P L = firstn L F))
      /\ (forall L', L < L' <= Nat.min 200 (Nat.min (length P) (length F)) ->
                     slice_last P L' <> firstn L' F))
  /\ trimOverlap (js "...The quick") (js "quick brown fox") = skipn 5 (js "quick brown fox")
  /\ last_ai (appendDeltaToLast (js "quick brown fox") (st_with_last (js "...The quick")))
     = Some (js "...The quick brown fox").
Proof.
  split; [|split; vm_compute; reflexivity].
  intros P F. unfold trimOverlap, trimOverlap_w.
  destruct (negb (truthy P) || negb (truthy F)) eqn:Hemp.
  - exists 0. assert (Hz : Nat.min 200 (Nat.min (length P) (length F)) = 0)
      by (destruct P, F; simpl in *; try discriminate; lia).
    rewrite Hz. split; [reflexivity|]. split; [lia|]. split; [left; reflexivity|].
    intros; lia.
  - destruct (overlap_loop_spec (slice_last P 200) F
                (Nat.min (length (slice_last P 200)) (length F)))
      as (L & HL & Hle & Hm & Hmax).
    rewrite length_slice_last in Hle, Hmax.
    exists L. split; [exact HL|]. split; [lia|]. split.
    + destruct Hm as [Hm|[Hpos Hm]]; [left; exact Hm|right; split; [exact Hpos|]].
      rewrite <- Hm. symmetry. apply slice_last_slice_last.
      rewrite length_slice_last. lia.
    + intros L' HL' Heq. apply (Hmax L'); [lia|].
      rewrite slice_last_slice_last; [exact Heq|]. rewrite length_slice_last. lia.
Qed.

(* ------------------------------------------------------------------ *)
(** ** Greedy run replacement *)

Lemma prefixb_starts (p s : jstr) : prefixb p s = true <-> starts p s.
Proof.
  unfold starts. revert s; induction p as [|a p IH]; intros [|b s]; simpl.
  - split; eauto.
  - split; eauto.
  - split; [discriminate|intros [z Hz]; discriminate].
  - rewrite andb_true_iff, N.eqb_eq, IH. split.
    + intros [-> [z ->]]. eauto.
    + intros [z Hz]. injection Hz as -> ->. eauto.
Qed.

Lemma starts_app_l (p z : jstr) : starts p (p ++ z).
Proof. exists z; reflexivity. Qed.

Lemma starts_trans (a b s : jstr) : starts a b -> starts b s -> starts a s.
Proof. intros [x ->] [y ->]. exists (x ++ y). now rewrite app_assoc. Qed.

(** [a ++ X = b ++ Y] with [a] no longer than [b]: [a] is a prefix of [b]. *)
Lemma app_eq_starts (a b X Y : jstr) :
  a ++ X = b ++ Y -> length a <= length b -> starts a b.
Proof.
  revert b; induction a as [|x a IH]; intros b H Hl.
  - exists b; reflexivity.
  - destruct b as [|y b]; simpl in Hl; [lia|].
    simpl in H. injection H as -> H. destruct (IH b H ltac:(lia)) as [z ->].
    exists z; reflexivity.
Qed.

(** [a ++ X = b ++ Y] with [a] at least as long as [b]: [a = b ++ a']. *)
Lemma app_eq_split (a b X Y : jstr) :
  a ++ X = b ++ Y -> length b <= length a -> exists a', a = b ++ a' /\ a' ++ X = Y.
Proof.
  revert a; induction b as [|y b IH]; intros a H Hl.
  - exists a; split; [reflexivity|exact H].
  - destruct a as [|x a]; simpl in Hl; [lia|].
    simpl in H. injection H as -> H. destruct (IH a H ltac:(lia)) as (a' & -> & H').
    exists a'; split; [reflexivity|exact H'].
Qed.

Lemma concat_repeat_length (m : jstr) (k : nat) :
  length (concat (repeat m k)) = k * length m.
Proof. induction k; simpl; [reflexivity|rewrite length_app, IHk; lia]. Qed.

Section Runs.
Variable m : jstr.
Hypothesis m_nonempty : m <> [].

Lemma m_length_pos : 0 < length m.
Proof. destruct m; [congruence|simpl; lia]. Qed.

Lemma strip_run_decomp (f : nat) (s : jstr) (k : nat) (r : jstr) :
  strip_run f m s = (k, r) -> s = concat (repeat m k) ++ r.
Proof.
  revert s k r; induction f as [|f IH]; intros s k r H; simpl in H.
  - injection H as <- <-. reflexivity.
  - destruct (prefixb m s) eqn:Hp.
    + apply prefixb_starts in Hp. destruct Hp as [z ->].
      rewrite skipn_app, Nat.sub_diag, skipn_all in H. simpl in H.
      destruct (strip_run f m z) as [k' r'] eqn:E. injection H as <- <-.
      simpl. rewrite <- app_assoc. f_equal. apply IH. exact E.
    + injection H as <- <-. reflexivity.
Qed.

Lemma strip_run_rest (f : nat) (s : jstr) (k : nat) (r : jstr) :
  length s <= f -> strip_run f m s = (k, r) -> prefixb m r = false.
Proof.
  pose proof m_length_pos as Hm.
  revert s k r; induction f as [|f IH]; intros s k r Hl H; simpl in H.
  - injection H as <- <-. destruct s; [|simpl in Hl; lia].
    destruct m; [congruence|reflexivity].
  - destruct (prefixb m s) eqn:Hp.
    + apply prefixb_starts in Hp. destruct Hp as [z ->].
      rewrite skipn_app, Nat.sub_diag, skipn_all in H. simpl in H.
      destruct (strip_run f m z) as [k' r'] eqn:E. injection H as <- <-.
      apply (IH z k'); [rewrite length_app in Hl; lia|exact E].
    + injection H as <- <-. exact Hp.
Qed.

Lemma strip_run_app (f : nat) (z : jstr) :
  strip_run (S f) m (m ++ z) =
  let '(k, r) := strip_run f m z in (S k, r).
Proof.
  simpl. replace (prefixb m (m ++ z)) with true
    by (symmetry; apply prefixb_starts; apply starts_app_l).
  rewrite skipn_app, Nat.sub_diag, skipn_all. reflexivity.
Qed.

Lemma strip_run_not (f : nat) (s : jstr) :
  prefixb m s = false -> strip_run f m s = (0, s).
Proof. destruct f; simpl; [reflexivity|]. intros ->. reflexivity. Qed.

Variables (min : nat) (rep : jstr).
Hypothesis min_pos : 1 <= min.

Lemma replace_runs_fuel_enough (f1 f2 : nat) (s : jstr) :
  length s <= f1 -> length s <= f2 ->
  replace_runs_fuel f1 m min rep s = replace_runs_fuel f2 m min rep s.
Proof.
  pose proof m_length_pos as Hm.
  revert f2 s; induction f1 as [|f1 IH]; intros f2 s H1 H2.
  - destruct s; [|simpl in H1; lia]. destruct f2; reflexivity.
  - destruct f2 as [|f2]; [destruct s; [reflexivity|simpl in H2; lia]|].
    destruct s as [|c t]; [reflexivity|]. cbn [replace_runs_fuel].
    destruct (strip_run (length (c :: t)) m (c :: t)) as [k r] eqn:E.
    destruct (Nat.leb_spec min k).
    + f_equal. apply IH.
      * apply strip_run_decomp in E. assert (Hl := f_equal (@length N) E).
        rewrite length_app, concat_repeat_length in Hl. simpl in *. nia.
      * apply strip_run_decomp in E. assert (Hl := f_equal (@length N) E).
        rewrite length_app, concat_repeat_length in Hl. simpl in *. nia.
    + f_equal. apply IH; simpl in *; lia.
Qed.

Lemma replace_runs_cons (c : N) (t : jstr) :
  replace_runs m min rep (c :: t) =
  let '(k, r) := strip_run (length (c :: t)) m (c :: t) in
  if min <=? k then rep ++ replace_runs m min rep r
  else c :: replace_runs m min rep t.
Proof.
  pose proof m_length_pos as Hm.
  unfold replace_runs at 1. cbn [replace_runs_fuel length].
  destruct (strip_run (S (length t)) m (c :: t)) as [k r] eqn:E.
  destruct (Nat.leb_spec min k).
  - f_equal. apply replace_runs_fuel_enough; [|lia].
    apply strip_run_decomp in E. assert (Hl := f_equal (@length N) E).
    rewrite length_app, concat_repeat_length in Hl. simpl in *. nia.
  - f_equal.
Qed.
End Runs.

Section Collapse.
Variable m : jstr.
Hypothesis m_nonempty : m <> [].

Lemma collapse_nil : collapse m [] = [].
Proof. reflexivity. Qed.

Lemma collapse_cases (c : N) (t : jstr) :
  (exists k r, 2 <= k /\ c :: t = concat (repeat m k) ++ r /\ prefixb m r = false
     /\ length r < length (c :: t)
     /\ collapse m (c :: t) = m ++ collapse m r)
  \/ (~ starts (m ++ m) (c :: t) /\ collapse m (c :: t) = c :: collapse m t).
Proof.
  pose proof (m_length_pos m m_nonempty) as Hm.
  unfold collapse. rewrite (replace_runs_cons m m_nonempty 2 m ltac:(lia)).
  destruct (strip_run (length (c :: t)) m (c :: t)) as [k r] eqn:E.
  destruct (Nat.leb_spec 2 k).
  - left. exists k, r. split; [lia|].
    split; [exact (strip_run_decomp m _ _ _ _ E)|].
    split; [exact (strip_run_rest m m_nonempty _ _ _ _ (le_n _) E)|].
    split; [|reflexivity].
    apply strip_run_decomp in E. assert (Hl := f_equal (@length N) E).
    rewrite length_app, concat_repeat_length in Hl. nia.
  - right. split; [|reflexivity].
    intros [z Hz]. rewrite Hz in E. rewrite <- app_assoc in E.
    assert (Hlen : length ((m ++ m) ++ z) >= 2) by (rewrite !length_app; lia).
    rewrite <- app_assoc in Hlen.
    destruct (length (m ++ m ++ z)) as [|[|f]] eqn:Hf; [lia|lia|].
    rewrite strip_run_app in E.
    destruct (strip_run (S f) m (m ++ z)) as [k1 r1] eqn:E1.
    rewrite strip_run_app in E1.
    destruct (strip_run f m z) as [k2 r2]. injection E1 as <- <-.
    injection E as <- <-. lia.
Qed.

(** A non-empty proper suffix of [m] is never a prefix of [m]. *)
Hypothesis m_no_border :
  forall p a, m = p ++ a -> p <> [] -> a <> [] -> ~ starts a m.

Lemma collapse_starts_short (w s : jstr) :
  length w <= length m -> starts w (collapse m s) -> starts w s.
Proof.
  remember (length s) as n eqn:Hn. revert w s Hn.
  induction n as [n IH] using lt_wf_ind. intros w s Hn Hw Hs.
  destruct s as [|c t].
  - rewrite collapse_nil in Hs. destruct Hs as [z Hz].
    destruct w; [exists []; reflexivity|discriminate].
  - destruct (collapse_cases c t)
      as [(k & r & Hk & Hdec & Hr & Hlt & Hc) | (Hnot & Hc)]; rewrite Hc in Hs.
    + destruct Hs as [z Hz]. pose proof (app_eq_starts _ _ _ _ (eq_sym Hz) Hw) as Hwm.
      rewrite Hdec. destruct k as [|k]; [lia|]. simpl.
      rewrite <- app_assoc. exact (starts_trans _ _ _ Hwm (starts_app_l _ _)).
    + destruct w as [|w0 w']; [exists (c :: t); reflexivity|].
      destruct Hs as [z Hz]. simpl in Hz. injection Hz as -> Hz.
      destruct (IH (length t) ltac:(simpl in Hn; lia) w' t eq_refl
                 ltac:(simpl in Hw; lia) (ex_intro _ z Hz)) as [y ->].
      exists y; reflexivity.
Qed.

Lemma collapse_starts_suffix (a s : jstr) :
  (exists p, p <> [] /\ m = p ++ a) ->
  starts (a ++ m) (collapse m s) -> starts (a ++ m) s.
Proof.
  remember (length s) as n eqn:Hn. revert a s Hn.
  induction n as [n IH] using lt_wf_ind. intros a s Hn (p & Hp & Hpa) Hs.
  destruct s as [|c t].
  - rewrite collapse_nil in Hs. destruct Hs as [z Hz].
    destruct a; destruct m; simpl in Hz; congruence.
  - destruct (collapse_cases c t)
      as [(k & r & Hk & Hdec & Hr & Hlt & Hc) | (Hnot & Hc)]; rewrite Hc in Hs.
    + destruct a as [|a0 a'].
      * rewrite Hdec. destruct k as [|k]; [lia|]. simpl.
        rewrite <- app_assoc. apply starts_app_l.
      * exfalso. destruct Hs as [z Hz]. rewrite <- app_assoc in Hz.
        assert (Hla : length (a0 :: a') <= length m)
          by (rewrite Hpa, length_app; lia).
        apply (m_no_border p (a0 :: a') Hpa Hp ltac:(discriminate)).
        exact (app_eq_starts _ _ _ _ (eq_sym Hz) Hla).
    + destruct a as [|a0 a'].
      * simpl in *. rewrite <- Hc in Hs.
        exact (collapse_starts_short m (c :: t) (le_n _) Hs).
      * destruct Hs as [z Hz]. simpl in Hz. injection Hz as -> Hz.
        assert (Hsuf : exists p', p' <> [] /\ m = p' ++ a').
        { exists (p ++ [a0]). split; [destruct p; discriminate|].
          rewrite Hpa, <- app_assoc. reflexivity. }
        assert (Hst : starts (a' ++ m) (collapse m t)).
        { exists z. exact Hz. }
        assert (Hlt : length t < n) by (rewrite Hn; simpl; lia).
        destruct (IH (length t) Hlt a' t eq_refl Hsuf Hst) as [y Hy].
        exists y. simpl. rewrite Hy. rewrite <- app_assoc. reflexivity.
Qed.

(** After collapsing, no two copies of [m] are adjacent. *)
Lemma collapse_no_double (s x y : jstr) : collapse m s <> x ++ m ++ m ++ y.
Proof.
  pose proof (m_length_pos m m_nonempty) as Hm.
  remember (length s) as n eqn:Hn. revert s x Hn.
  induction n as [n IH] using lt_wf_ind. intros s x Hn Hs.
  destruct s as [|c t].
  - rewrite collapse_nil in Hs. destruct x; destruct m; simpl in Hs; congruence.
  - destruct (collapse_cases c t)
      as [(k & r & Hk & Hdec & Hr & Hlt & Hc) | (Hnot & Hc)]; rewrite Hc in Hs.
    + destruct (le_lt_dec (length m) (length x)) as [Hge|Hlt'].
      * destruct (app_eq_split _ _ _ _ (eq_sym Hs) Hge) as (x' & -> & Hx').
        apply (IH (length r) ltac:(lia) r x' eq_refl). symmetry. exact Hx'.
      * destruct x as [|x0 x'].
        -- simpl in Hs. apply app_inv_head in Hs.
           assert (Hst : starts m (collapse m r)) by (rewrite Hs; apply starts_app_l).
           apply (collapse_starts_short m r (le_n _)) in Hst.
           apply prefixb_starts in Hst. congruence.
        -- destruct (app_eq_split _ _ _ _ Hs ltac:(lia)) as (a & Ha & Hrest).
           assert (Hlx : length m = length (x0 :: x') + length a)
             by (rewrite Ha, length_app; reflexivity).
           assert (Hane : a <> []) by (intros ->; simpl in *; lia).
           apply (m_no_border (x0 :: x') a Ha ltac:(discriminate) Hane).
           exact (app_eq_starts _ _ _ _ Hrest ltac:(lia)).
    + destruct x as [|x0 x'].
      * apply Hnot.
        assert (Hm' : exists m0 m', m = m0 :: m') by (destruct m; [congruence|eauto]).
        destruct Hm' as (m0 & m' & Em). simpl in Hs.
        assert (Hs' : c :: collapse m t = m0 :: (m' ++ m ++ y))
          by (rewrite Hs; rewrite Em at 1; reflexivity).
        injection Hs' as -> Hs'.
        assert (Hst : starts (m' ++ m) (collapse m t))
          by (rewrite Hs'; exists y; rewrite <- !app_assoc; reflexivity).
        apply collapse_starts_suffix in Hst;
          [|exists [m0]; split; [discriminate|rewrite Em; reflexivity]].
        destruct Hst as [z Hz]. exists z. rewrite Hz.
        transitivity (((m0 :: m') ++ m) ++ z); [reflexivity|rewrite <- Em; reflexivity].
      * simpl in Hs. injection Hs as _ Hs.
        apply (IH (length t) ltac:(simpl in Hn; lia) t x' eq_refl Hs).
Qed.
End Collapse.

(** Collapsing runs of a marker [c] creates no occurrence of a pattern [q]
    when no non-empty suffix of either can start the other. *)
Section CollapseOther.
Variables c q : jstr.
Hypothesis c_nonempty : c <> [].
Hypothesis q_nonempty : q <> [].
Hypothesis c_suffix_apart :
  forall p a, c = p ++ a -> a <> [] -> ~ starts a q /\ ~ starts q a.
Hypothesis q_suffix_apart :
  forall p w, q = p ++ w -> w <> [] -> ~ starts w c /\ ~ starts c w.

Lemma collapse_other_starts (w s : jstr) :
  (exists p, q = p ++ w) -> starts w (collapse c s) -> starts w s.
Proof.
  remember (length s) as n eqn:Hn. revert w s Hn.
  induction n as [n IH] using lt_wf_ind. intros w s Hn (p & Hp) Hs.
  destruct w as [|w0 w']; [exists s; reflexivity|].
  destruct s as [|c0 t].
  - rewrite collapse_nil in Hs. destruct Hs as [z Hz]. discriminate.
  - destruct (collapse_cases c c_nonempty c0 t)
      as [(k & r & Hk & Hdec & Hr & Hlt & Hc) | (Hnot & Hc)]; rewrite Hc in Hs.
    + exfalso. destruct Hs as [z Hz].
      destruct (q_suffix_apart p (w0 :: w') Hp ltac:(discriminate)) as [H1 H2].
      destruct (le_lt_dec (length (w0 :: w')) (length c)).
      * apply H1. exact (app_eq_starts _ _ _ _ (eq_sym Hz) l).
      * apply H2. exact (app_eq_starts _ _ _ _ Hz ltac:(lia)).
    + destruct Hs as [z Hz]. simpl in Hz. injection Hz as -> Hz.
      assert (Hsuf : exists p', q = p' ++ w')
        by (exists (p ++ [w0]); rewrite Hp, <- app_assoc; reflexivity).
      assert (Hlt : length t < n) by (rewrite Hn; simpl; lia).
      destruct (IH (length t) Hlt w' t eq_refl Hsuf (ex_intro _ z Hz)) as [y ->].
      exists y; reflexivity.
Qed.

Lemma collapse_other_no_sub (s x y : jstr) :
  (forall x' y', s <> x' ++ q ++ y') -> collapse c s <> x ++ q ++ y.
Proof.
  pose proof (m_length_pos c c_nonempty) as Hcl.
  remember (length s) as n eqn:Hn. revert s x Hn.
  induction n as [n IH] using lt_wf_ind. intros s x Hn Hno Hs.
  destruct s as [|c0 t].
  - rewrite collapse_nil in Hs. destruct x; destruct q; simpl in Hs; congruence.
  - destruct (collapse_cases c c_nonempty c0 t)
      as [(k & r & Hk & Hdec & Hr & Hlt & Hc) | (Hnot & Hc)]; rewrite Hc in Hs.
    + destruct (le_lt_dec (length c) (length x)) as [Hge|Hlt'].
      * destruct (app_eq_split _ _ _ _ (eq_sym Hs) Hge) as (x' & -> & Hx').
        apply (IH (length r) ltac:(lia) r x' eq_refl); [|symmetry; exact Hx'].
        intros x'' y'' Hr''. apply (Hno (concat (repeat c k) ++ x'') y'').
        rewrite Hdec, Hr'', <- app_assoc. reflexivity.
      * destruct (app_eq_split _ _ _ _ Hs ltac:(lia)) as (a & Ha & Hrest).
        assert (Hlx : length c = length x + length a)
          by (rewrite Ha, length_app; reflexivity).
        assert (Hane : a <> []) by (intros ->; simpl in *; lia).
        destruct (c_suffix_apart x a Ha Hane) as [H1 H2].
        destruct (le_lt_dec (length a) (length q)).
        -- apply H1. exact (app_eq_starts _ _ _ _ Hrest l).
        -- apply H2. exact (app_eq_starts _ _ _ _ (eq_sym Hrest) ltac:(lia)).
    + destruct x as [|x0 x'].
      * simpl in Hs. rewrite <- Hc in Hs.
        assert (Hst : starts q (collapse c (c0 :: t))) by (rewrite Hs; apply starts_app_l).
        apply collapse_other_starts in Hst; [|exists []; reflexivity].
        destruct Hst as [z Hz]. apply (Hno [] z). exact Hz.
      * simpl in Hs. injection Hs as _ Hs.
        apply (IH (length t) ltac:(simpl in Hn; lia) t x' eq_refl); [|exact Hs].
        intros x'' y'' Ht. apply (Hno (c0 :: x'') y''). rewrite Ht. reflexivity.
Qed.
End CollapseOther.

(* ------------------------------------------------------------------ *)
(** ** The two markers *)

Lemma splits_complete (m p a : jstr) : m = p ++ a -> In (p, a) (splits m).
Proof.
  intros ->. unfold splits. apply in_map_iff. exists (length p). split.
  - rewrite firstn_app, skipn_app, Nat.sub_diag, firstn_all, skipn_all.
    simpl. rewrite app_nil_r. reflexivity.
  - apply in_seq. rewrite length_app. lia.
Qed.

Lemma no_border_b_spec (m : jstr) :
  no_border_b m = true ->
  forall p a, m = p ++ a -> p <> [] -> a <> [] -> ~ starts a m.
Proof.
  intros Hb p a Hpa Hp Ha Hst. apply splits_complete in Hpa.
  unfold no_border_b in Hb. rewrite forallb_forall in Hb.
  specialize (Hb _ Hpa). cbn beta iota in Hb. apply prefixb_starts in Hst. rewrite Hst in Hb.
  destruct p, a; simpl in Hb; congruence.
Qed.

Lemma apart_b_spec (c q : jstr) :
  apart_b c q = true ->
  forall p a, c = p ++ a -> a <> [] -> ~ starts a q /\ ~ starts q a.
Proof.
  intros Hb p a Hpa Ha. apply splits_complete in Hpa.
  unfold apart_b in Hb. rewrite forallb_forall in Hb. specialize (Hb _ Hpa).
  cbn beta iota in Hb.
  destruct a as [|a0 a']; [congruence|]. cbn [truthy negb orb] in Hb.
  rewrite andb_true_iff, !negb_true_iff in Hb. destruct Hb as [H1 H2].
  split; intros Hs; apply prefixb_starts in Hs; congruence.
Qed.

Lemma OPEN_facts :
  no_border_b OPEN = true /\ no_border_b CLOSE = true
  /\ apart_b CLOSE (OPEN ++ OPEN) = true /\ apart_b (OPEN ++ OPEN) CLOSE = true.
Proof. vm_compute. repeat split. Qed.

Lemma OPEN_nonempty : OPEN <> [].
Proof. discriminate. Qed.

Lemma CLOSE_nonempty : CLOSE <> [].
Proof. discriminate. Qed.

(** The fragment normalisation leaves no doubled marker. *)
Lemma collapse_markers_no_double (d x y : jstr) :
  collapse_markers d <> x ++ OPEN ++ OPEN ++ y
  /\ collapse_markers d <> x ++ CLOSE ++ CLOSE ++ y.
Proof.
  destruct OPEN_facts as (H1 & H2 & H3 & H4). split.
  - unfold collapse_markers. fold (collapse CLOSE (replace_runs OPEN 2 OPEN d)).
    fold (collapse OPEN d).
    replace (x ++ OPEN ++ OPEN ++ y) with (x ++ (OPEN ++ OPEN) ++ y)
      by (rewrite <- app_assoc; reflexivity).
    apply (collapse_other_no_sub CLOSE (OPEN ++ OPEN)); [exact CLOSE_nonempty|discriminate
      |exact (apart_b_spec _ _ H3)|exact (apart_b_spec _ _ H4)|].
    intros x' y'. rewrite <- app_assoc.
    apply (collapse_no_double OPEN OPEN_nonempty (no_border_b_spec _ H1)).
  - unfold collapse_markers. fold (collapse CLOSE (replace_runs OPEN 2 OPEN d)).
    apply (collapse_no_double CLOSE CLOSE_nonempty (no_border_b_spec _ H2)).
Qed.

(* ------------------------------------------------------------------ *)
(** ** State updates of the [useLLM] hook *)

Lemma setMessages_fresh (f : Updater) (s : St) (l : list Message) :
  WF s -> f (messages s) (next_ref s) = (mkArr (next_ref s) l, S (next_ref s)) ->
  setMessages f s =
  mkSt (mkArr (next_ref s) l) (S (next_ref s)) (S (msg_updates s)) (input s) (isGenerating s)
    (streamingEnabled s) (unlistenStreamRef s) (unlistenDoneRef s) (listeners s)
    (next_handle s).
Proof.
  unfold WF, setMessages. intros Hwf ->. simpl.
  destruct (Nat.eqb_spec (next_ref s) (arr_id (messages s))); [lia|reflexivity].
Qed.

Lemma trimOverlap_nil (P : jstr) : trimOverlap P [] = [].
Proof. unfold trimOverlap, trimOverlap_w. rewrite orb_true_r. reflexivity. Qed.

Lemma last_set_last (l : list Message) (x : Message) :
  List.last (set_last l x) default_msg = x.
Proof. unfold set_last. apply last_last. Qed.

Lemma removelast_set_last (l : list Message) (x : Message) :
  removelast (set_last l x) = removelast l.
Proof. unfold set_last. apply removelast_last. Qed.

Lemma appendDelta_items (s : St) (inc : jstr) :
  WF s -> items (messages s) <> [] ->
  let out := items (messages s) in
  let last := List.last out default_msg in
  let P := ai_or_empty last in
  let D := collapse_markers (trimOverlap P inc) in
  items (messages (appendDeltaToLast inc s))
  = if truthy D then set_last out (with_ai last (P ++ D)) else out.
Proof.
  intros Hwf Hne. cbv zeta. unfold appendDeltaToLast.
  destruct (truthy inc) eqn:Hi.
  - cbn [negb]. destruct (items (messages s)) as [|m0 ms] eqn:E; [congruence|].
    match goal with |- context [setMessages ?f s] => set (g := f) end.
    destruct (truthy (collapse_markers (trimOverlap (ai_or_empty (List.last (m0 :: ms) default_msg)) inc))) eqn:Ht.
    + rewrite (setMessages_fresh g s
                 (set_last (m0 :: ms) (with_ai (List.last (m0 :: ms) default_msg)
                    (ai_or_empty (List.last (m0 :: ms) default_msg) ++
                     collapse_markers (trimOverlap (ai_or_empty (List.last (m0 :: ms) default_msg)) inc)))));
        [reflexivity|exact Hwf|].
      unfold g. rewrite E, Ht. reflexivity.
    + rewrite (setMessages_fresh g s (m0 :: ms)); [reflexivity|exact Hwf|].
      unfold g. rewrite E, Ht. reflexivity.
  - destruct inc; [|discriminate]. rewrite trimOverlap_nil. reflexivity.
Qed.

(** One reconciliation step appends the normalised fragment to the last
    turn and leaves the other turns alone. *)
Lemma appendDelta_last_ai (s : St) (inc : jstr) :
  WF s -> items (messages s) <> [] ->
  let out := items (messages s) in
  let P := ai_or_empty (List.last out default_msg) in
  let out' := items (messages (appendDeltaToLast inc s)) in
  ai_or_empty (List.last out' default_msg) = P ++ collapse_markers (trimOverlap P inc)
  /\ removelast out' = removelast out.
Proof.
  intros Hwf Hne. cbv zeta. rewrite (appendDelta_items s inc Hwf Hne). cbv zeta.
  destruct (truthy _) eqn:Ht.
  - rewrite last_set_last, removelast_set_last. split; reflexivity.
  - destruct (collapse_markers _); [|discriminate]. rewrite app_nil_r. split; reflexivity.
Qed.

(** The accumulated text never shrinks in a reconciliation step. *)
Lemma appendDelta_length_mono (s : St) (inc : jstr) :
  WF s -> items (messages s) <> [] ->
  length (ai_or_empty (List.last (items (messages s)) default_msg))
  <= length (ai_or_empty (List.last (items (messages (appendDeltaToLast inc s))) default_msg)).
Proof.
  intros Hwf Hne. destruct (appendDelta_last_ai s inc Hwf Hne) as [H _].
  rewrite H, length_app. lia.
Qed.

(** C4. In a reconciliation step with committed text [P] (the last turn's
    assistant text) and fragment [F], the text appended is [F'] (the
    overlap-trimmed fragment) with every run of two or more [<think>] and of
    two or more [</think>] collapsed: no two markers of either kind remain
    adjacent in it.  [P] is left as it was and is a literal prefix of the
    new text; the other turns are untouched. *)
Theorem appendDelta_normalises_fragment_only (s : St) (incoming : jstr) :
  WF s -> items (messages s) <> [] ->
  let out := items (messages s) in
  let P := ai_or_empty (List.last out default_msg) in
  let D := collapse_markers (trimOverlap P incoming) in
  let out' := items (messages (appendDeltaToLast incoming s)) in
  ai_or_empty (List.last out' default_msg) = P ++ D
  /\ removelast out' = removelast out
  /\ (forall x y, D <> x ++ OPEN ++ OPEN ++ y)
  /\ (forall x y, D <> x ++ CLOSE ++ CLOSE ++ y).
Proof.
  intros Hwf Hne. cbv zeta.
  destruct (appendDelta_last_ai s incoming Hwf Hne) as [H1 H2].
  split; [exact H1|]. split; [exact H2|].
  split; intros x y; apply collapse_markers_no_double.
Qed.

Lemma appendDelta_normalises_fragment_only_witness :
  WF (st_with_last (js "abc")) /\ items (messages (st_with_last (js "abc"))) <> []
  /\ ai_or_empty (List.last (items (messages
        (appendDeltaToLast (js "c<think><think>x") (st_with_last (js "abc"))))) default_msg)
     = js "abc" ++ collapse_markers (trimOverlap (js "abc") (js "c<think><think>x")).
Proof.
  assert (Hwf : WF (st_with_last (js "abc"))) by (unfold WF; simpl; lia).
  assert (Hne : items (messages (st_with_last (js "abc"))) <> []) by discriminate.
  split; [exact Hwf|]. split; [exact Hne|].
  exact (proj1 (appendDelta_normalises_fragment_only _ (js "c<think><think>x") Hwf Hne)).
Defined.

(** C3 (code defect).  A non-empty fragment that is entirely an echo of the
    accumulated text leaves the text unchanged, yet the updater returns the
    fresh copy [out] instead of [prev], so React commits a new array and the
    transcript is updated. *)
Theorem appendDelta_echo_still_updates :
  let s := st_with_last (js "Okay so") in
  let s' := appendDeltaToLast (js "so") s in
  collapse_markers (trimOverlap (js "Okay so") (js "so")) = []
  /\ items (messages s') = items (messages s)
  /\ arr_id (messages s') <> arr_id (messages s)
  /\ msg_updates s' = S (msg_updates s).
Proof. vm_compute. split; [reflexivity|]. split; [reflexivity|]. split; [discriminate|reflexivity]. Qed.

(* ------------------------------------------------------------------ *)
(** ** Releasing subscriptions *)

Lemma existsb_live (h : nat) (s : St) :
  existsb (fun l => Nat.eqb (fst l) h) (listeners s) = true <-> live h s.
Proof.
  unfold live. rewrite existsb_exists, in_map_iff. split.
  - intros (l & Hin & Heq). apply Nat.eqb_eq in Heq. eauto.
  - intros (l & Heq & Hin). exists l. split; [exact Hin|]. apply Nat.eqb_eq; exact Heq.
Qed.

Lemma safeUnlisten_absent (h : nat) (s : St) :
  ~ live h s -> safeUnlisten (Some h) s = s.
Proof.
  intros Hn. unfold safeUnlisten, unlisten.
  destruct (existsb _ _) eqn:E; [apply existsb_live in E; contradiction|reflexivity].
Qed.

Lemma safeUnlisten_gone (h : nat) (s : St) : ~ live h (safeUnlisten (Some h) s).
Proof.
  unfold safeUnlisten, unlisten. destruct (existsb _ _) eqn:E.
  - unfold live; simpl. rewrite in_map_iff. intros (l & Heq & Hin).
    apply filter_In in Hin. destruct Hin as [_ Hf].
    rewrite Heq, Nat.eqb_refl in Hf. discriminate.
  - intros Hl. apply existsb_live in Hl. congruence.
Qed.

(** Listeners only disappear. *)
Lemma safeUnlisten_sub (u : option nat) (s : St) (l : nat * channel) :
  In l (listeners (safeUnlisten u s)) -> In l (listeners s).
Proof.
  destruct u as [h|]; [|auto]. unfold safeUnlisten, unlisten.
  destruct (existsb _ _); [|auto]. simpl. intros Hin. apply filter_In in Hin. tauto.
Qed.

Lemma safeUnlisten_not_live (u : option nat) (h : nat) (s : St) :
  ~ live h s -> ~ live h (safeUnlisten u s).
Proof.
  unfold live. intros Hn Hin. apply Hn. rewrite in_map_iff in *.
  destruct Hin as (l & Heq & Hin). exists l. split; [exact Heq|].
  exact (safeUnlisten_sub u s l Hin).
Qed.

Lemma safeUnlisten_fields (u : option nat) (s : St) :
  let s' := safeUnlisten u s in
  messages s' = messages s /\ next_ref s' = next_ref s /\ isGenerating s' = isGenerating s
  /\ unlistenStreamRef s' = unlistenStreamRef s /\ unlistenDoneRef s' = unlistenDoneRef s
  /\ next_handle s' = next_handle s.
Proof.
  destruct u as [h|]; [|repeat split]. unfold safeUnlisten, unlisten.
  destruct (existsb _ _); repeat split.
Qed.

Lemma setMessages_fields (f : Updater) (s : St) :
  let s' := setMessages f s in
  unlistenStreamRef s' = unlistenStreamRef s /\ unlistenDoneRef s' = unlistenDoneRef s
  /\ listeners s' = listeners s /\ isGenerating s' = isGenerating s
  /\ next_handle s' = next_handle s /\ input s' = input s
  /\ streamingEnabled s' = streamingEnabled s.
Proof.
  unfold setMessages. destruct (f (messages s) (next_ref s)) as [a n].
  destruct (Nat.eqb _ _); repeat split.
Qed.

Lemma set_last_ai_fresh (text : jstr) (s : St) :
  WF s -> items (messages s) <> [] ->
  items (messages (setMessages (set_last_ai text) s))
  = set_last (items (messages s)) (with_ai (List.last (items (messages s)) default_msg) text)
  /\ WF (setMessages (set_last_ai text) s).
Proof.
  intros Hwf Hne.
  rewrite (setMessages_fresh _ s
             (set_last (items (messages s))
                (with_ai (List.last (items (messages s)) default_msg) text)) Hwf).
  - split; [reflexivity|]. unfold WF; simpl; lia.
  - unfold set_last_ai. destruct (items (messages s)); [congruence|reflexivity].
Qed.

(** The completion handler, for any final text. *)
Lemma onComplete_spec (s : St) (t : jstr) :
  WF s -> items (messages s) <> [] ->
  let s' := onComplete t s in
  last_ai s' = (if truthy t then Some t else last_ai s)
  /\ removelast (items (messages s')) = removelast (items (messages s))
  /\ isGenerating s' = false
  /\ unlistenStreamRef s' = None /\ unlistenDoneRef s' = None
  /\ (forall h, unlistenStreamRef s = Some h \/ unlistenDoneRef s = Some h -> ~ live h s')
  /\ (forall l, In l (listeners s') -> In l (listeners s))
  /\ WF s'.
Proof.
  intros Hwf Hne. cbv zeta. unfold onComplete.
  set (s1 := if truthy t then _ else s).
  assert (H1 : last_ai s1 = (if truthy t then Some t else last_ai s)
               /\ removelast (items (messages s1)) = removelast (items (messages s))
               /\ unlistenStreamRef s1 = unlistenStreamRef s
               /\ unlistenDoneRef s1 = unlistenDoneRef s
               /\ listeners s1 = listeners s /\ WF s1).
  { unfold s1. destruct (truthy t).
    - destruct (set_last_ai_fresh t s Hwf Hne) as [Hi Hw].
      unfold last_ai. rewrite Hi, last_set_last, removelast_set_last.
      destruct (setMessages_fields (set_last_ai t) s) as (F1 & F2 & F3 & _).
      repeat split; auto.
    - repeat split; auto. }
  destruct H1 as (Hl & Hr & Hus & Hud & Hls & Hw1).
  destruct (safeUnlisten_fields (unlistenStreamRef (setIsGenerating false s1))
              (setIsGenerating false s1)) as (M3 & N3 & G3 & US3 & UD3 & _).
  remember (safeUnlisten (unlistenStreamRef (setIsGenerating false s1))
              (setIsGenerating false s1)) as s3 eqn:E3.
  destruct (safeUnlisten_fields (unlistenDoneRef s3) s3) as (M4 & N4 & G4 & US4 & UD4 & _).
  remember (safeUnlisten (unlistenDoneRef s3) s3) as s4 eqn:E4.
  unfold setRefs, last_ai, WF.
  cbn [messages isGenerating unlistenStreamRef unlistenDoneRef listeners next_ref].
  cbn [messages next_ref isGenerating unlistenStreamRef unlistenDoneRef setIsGenerating]
    in M3, N3, G3, US3, UD3.
  rewrite M4, M3. split; [exact Hl|]. split; [exact Hr|].
  split; [rewrite G4, G3; reflexivity|]. split; [reflexivity|]. split; [reflexivity|].
  split; [|split].
  - intros h [Hh|Hh].
    + assert (Hg : ~ live h s3).
      { rewrite E3. cbn [unlistenStreamRef setIsGenerating]. rewrite Hus, Hh.
        apply safeUnlisten_gone. }
      unfold live. cbn [listeners]. rewrite E4. exact (safeUnlisten_not_live _ h s3 Hg).
    + unfold live. cbn [listeners]. rewrite E4, UD3, Hud, Hh.
      exact (safeUnlisten_gone h s3).
  - intros l Hin. cbn [listeners] in Hin. rewrite E4 in Hin.
    apply safeUnlisten_sub in Hin. rewrite E3 in Hin. apply safeUnlisten_sub in Hin.
    cbn [listeners setIsGenerating] in Hin. rewrite <- Hls. exact Hin.
  - rewrite N4, N3. exact Hw1.
Qed.

(** C1 (amended).  When the completion event fires, the handler replaces
    the last turn's assistant text by the final text if that text is
    non-empty and keeps the accumulated text if it is empty (the value a
    missing payload also becomes); in both cases it leaves the other turns
    alone, clears the generating flag, releases both subscriptions held in
    the refs and clears the refs, and releasing either subscription again
    (through the cleared refs or through its old handle) changes nothing
    and throws nothing. *)
Theorem onComplete_final_text (s : St) (t : jstr) :
  WF s -> items (messages s) <> [] ->
  let s' := onComplete t s in
  last_ai s' = (if truthy t then Some t else last_ai s)
  /\ removelast (items (messages s')) = removelast (items (messages s))
  /\ isGenerating s' = false
  /\ unlistenStreamRef s' = None /\ unlistenDoneRef s' = None
  /\ (forall h, unlistenStreamRef s = Some h \/ unlistenDoneRef s = Some h ->
        ~ live h s' /\ safeUnlisten (Some h) s' = s')
  /\ safeUnlisten (unlistenStreamRef s') s' = s'
  /\ safeUnlisten (unlistenDoneRef s') s' = s'.
Proof.
  intros Hwf Hne. cbv zeta.
  destruct (onComplete_spec s t Hwf Hne) as (H1 & H2 & H3 & H4 & H5 & H6 & _).
  split; [exact H1|]. split; [exact H2|]. split; [exact H3|].
  split; [exact H4|]. split; [exact H5|].
  split; [|rewrite H4, H5; split; reflexivity].
  intros h Hh. split; [exact (H6 h Hh)|]. apply safeUnlisten_absent. exact (H6 h Hh).
Qed.

Lemma onComplete_final_text_witness :
  WF (st_streaming (js "partial")) /\ items (messages (st_streaming (js "partial"))) <> []
  /\ last_ai (onComplete (js "done") (st_streaming (js "partial"))) = Some (js "done").
Proof.
  assert (Hwf : WF (st_streaming (js "partial"))) by (unfold WF; simpl; lia).
  assert (Hne : items (messages (st_streaming (js "partial"))) <> []) by discriminate.
  split; [exact Hwf|]. split; [exact Hne|].
  exact (proj1 (onComplete_final_text _ (js "done") Hwf Hne)).
Defined.

(** C1 fails for the empty final text: the accumulated text is kept. *)
Lemma onComplete_empty_text_keeps :
  last_ai (onComplete (js "") (st_streaming (js "partial"))) = Some (js "partial")
  /\ last_ai (onComplete (js "") (st_streaming (js "partial"))) <> Some (js "").
Proof. vm_compute. split; [reflexivity|discriminate]. Qed.

(* ------------------------------------------------------------------ *)
(** *** Failure of a send *)

Lemma setMessages_WF (f : Updater) (s : St) (l : list Message) :
  WF s -> f (messages s) (next_ref s) = (mkArr (next_ref s) l, S (next_ref s)) ->
  WF (setMessages f s).
Proof. intros Hwf Hf. rewrite (setMessages_fresh f s l Hwf Hf). unfold WF; simpl; lia. Qed.

Lemma appendDelta_frame (s : St) (inc : jstr) :
  WF s -> items (messages s) <> [] ->
  let s' := appendDeltaToLast inc s in
  WF s' /\ listeners s' = listeners s /\ unlistenStreamRef s' = unlistenStreamRef s
  /\ unlistenDoneRef s' = unlistenDoneRef s.
Proof.
  intros Hwf Hne. cbv zeta. unfold appendDeltaToLast.
  destruct (truthy inc); cbn [negb]; [|repeat split; assumption].
  match goal with |- context [setMessages ?f s] => set (g := f) end.
  destruct (setMessages_fields g s) as (F1 & F2 & F3 & _).
  split; [|repeat split; assumption].
  destruct (items (messages s)) as [|m0 ms] eqn:E; [congruence|].
  destruct (truthy (collapse_markers (trimOverlap (ai_or_empty (List.last (m0 :: ms) default_msg)) inc))) eqn:Ht;
    (eapply setMessages_WF; [exact Hwf|unfold g; rewrite E, Ht; reflexivity]).
Qed.

Lemma set_last_snoc (pre : list Message) (x y : Message) :
  set_last (pre ++ [x]) y = pre ++ [y].
Proof. unfold set_last. rewrite removelast_last. reflexivity. Qed.

Lemma last_snoc (pre : list Message) (x : Message) :
  List.last (pre ++ [x]) default_msg = x.
Proof. apply last_last. Qed.

Lemma snoc_nonempty (pre : list Message) (x : Message) : pre ++ [x] <> [].
Proof. destruct pre; discriminate. Qed.

Lemma onComplete_items (s : St) (t : jstr) :
  WF s -> items (messages s) <> [] ->
  items (messages (onComplete t s))
  = if truthy t
    then set_last (items (messages s)) (with_ai (List.last (items (messages s)) default_msg) t)
    else items (messages s).
Proof.
  intros Hwf Hne. unfold onComplete, setRefs. cbn [messages].
  set (s1 := if truthy t then _ else s).
  set (s2 := setIsGenerating false s1).
  destruct (safeUnlisten_fields (unlistenStreamRef s2) s2) as (M3 & _).
  destruct (safeUnlisten_fields (unlistenDoneRef (safeUnlisten (unlistenStreamRef s2) s2))
              (safeUnlisten (unlistenStreamRef s2) s2)) as (M4 & _).
  rewrite M4, M3. unfold s2, s1. cbn [messages setIsGenerating].
  destruct (truthy t); [|reflexivity].
  exact (proj1 (set_last_ai_fresh t s Hwf Hne)).
Qed.

Section InFlight.
Variables (n0 : nat) (pre : list Message) (u : jstr).

Lemma Inv_appendDelta (s : St) (inc : jstr) :
  Inv n0 pre u s -> Inv n0 pre u (appendDeltaToLast inc s).
Proof.
  intros (Hwf & (a & Ha) & Hl).
  assert (Hne : items (messages s) <> []) by (rewrite Ha; apply snoc_nonempty).
  destruct (appendDelta_frame s inc Hwf Hne) as (W & L & U1 & U2).
  split; [exact W|]. split.
  - rewrite (appendDelta_items s inc Hwf Hne). cbv zeta. rewrite Ha.
    destruct (truthy _).
    + rewrite set_last_snoc, last_snoc. eexists; reflexivity.
    + eexists; reflexivity.
  - rewrite L, U1, U2. exact Hl.
Qed.

Lemma Inv_onComplete (s : St) (t : jstr) :
  Inv n0 pre u s ->
  let s' := onComplete t s in
  Inv n0 pre u s' /\ isGenerating s' = false
  /\ unlistenStreamRef s' = None /\ unlistenDoneRef s' = None
  /\ (forall l, In l (listeners s') -> fst l < n0)
  /\ (truthy t = true -> items (messages s') = pre ++ [mkMessage u (Some t)]).
Proof.
  intros (Hwf & (a & Ha) & Hl). cbv zeta.
  assert (Hne : items (messages s) <> []) by (rewrite Ha; apply snoc_nonempty).
  destruct (onComplete_spec s t Hwf Hne) as (_ & _ & G & R1 & R2 & Gone & Sub & W).
  pose proof (onComplete_items s t Hwf Hne) as Hi.
  rewrite Ha, set_last_snoc, last_snoc in Hi.
  assert (Hlt : forall l, In l (listeners (onComplete t s)) -> fst l < n0).
  { intros l Hin. destruct (Hl l (Sub l Hin)) as [Hlt|Hr]; [exact Hlt|].
    exfalso. apply (Gone (fst l) Hr). unfold live. apply in_map. exact Hin. }
  split; [|split; [exact G|split; [exact R1|split; [exact R2|split; [exact Hlt|]]]]].
  - split; [exact W|]. split.
    + rewrite Hi. destruct (truthy t); eexists; reflexivity.
    + intros l Hin. left. exact (Hlt l Hin).
  - intros Ht. rewrite Hi, Ht. reflexivity.
Qed.

Lemma Inv_deliver (ev : event) (s : St) :
  Inv n0 pre u s -> Inv n0 pre u (deliver ev s).
Proof.
  unfold deliver. generalize (listeners s). intros ls. revert s.
  induction ls as [|l ls IH]; intros s H; [exact H|].
  cbn [fold_left]. apply IH.
  destruct ev as [d|t], (snd l).
  - apply Inv_appendDelta; exact H.
  - exact H.
  - exact H.
  - exact (proj1 (Inv_onComplete s _ H)).
Qed.

Lemma Inv_events (evs : list event) (s : St) :
  Inv n0 pre u s -> Inv n0 pre u (fold_left (fun st ev => deliver ev st) evs s).
Proof.
  revert s. induction evs as [|ev evs IH]; intros s H; [exact H|].
  cbn [fold_left]. apply IH, Inv_deliver, H.
Qed.

End InFlight.

Lemma error_text_truthy (e : jsval) : truthy (error_text e) = true.
Proof. reflexivity. Qed.

Lemma catch_stream_onComplete (e : jsval) (s : St) :
  catch_stream e s = onComplete (error_text e) s.
Proof. reflexivity. Qed.

Lemma catch_stream_report (n0 : nat) (pre : list Message) (u : jstr) (e : jsval) (s : St) :
  Inv n0 pre u s ->
  let s' := catch_stream e s in
  items (messages s') = pre ++ [mkMessage u (Some (error_text e))]
  /\ isGenerating s' = false
  /\ (forall l, In l (listeners s') -> fst l < n0)
  /\ unlistenStreamRef s' = None /\ unlistenDoneRef s' = None.
Proof.
  intros H. cbv zeta. rewrite catch_stream_onComplete.
  destruct (Inv_onComplete n0 pre u s (error_text e) H) as (_ & G & R1 & R2 & L & I).
  repeat split; auto.
Qed.

(** Registering a subscription on a state of the invariant, when the
    handle is then stored in a ref. *)
Lemma Inv_listen (n0 : nat) (pre : list Message) (u : jstr) (ch : channel) (s : St)
  (us ud : option nat) :
  Inv n0 pre u s ->
  (forall l, In l (listeners s) -> fst l < n0 \/ us = Some (fst l) \/ ud = Some (fst l)) ->
  us = Some (next_handle s) \/ ud = Some (next_handle s) ->
  exists s1, listen ch (Ok tt) s = Ok (next_handle s, s1)
    /\ Inv n0 pre u (setRefs us ud s1)
    /\ next_handle s1 = S (next_handle s) /\ messages s1 = messages s
    /\ unlistenStreamRef s1 = unlistenStreamRef s /\ unlistenDoneRef s1 = unlistenDoneRef s
    /\ listeners s1 = listeners s ++ [(next_handle s, ch)].
Proof.
  intros (Hwf & Ha & _) Hl Hh. eexists. split; [reflexivity|].
  split; [|repeat split].
  split; [exact Hwf|]. split; [exact Ha|].
  cbn [setRefs listeners unlistenStreamRef unlistenDoneRef]. intros l Hin.
  apply in_app_or in Hin. destruct Hin as [Hin|[<-|[]]]; [exact (Hl l Hin)|].
  right. exact Hh.
Qed.

(** C9.  If the send path fails for an error value [e] (the start request
    of the non-streaming path, or, on the streaming path, either
    subscription or the stream request, with any push events delivered
    before the latter fails), [sendMessage] resolves normally, the new
    turn's assistant text is the literal ["[ERROR] " + String(e)], the
    generating flag is cleared, no subscription made by this send is left
    live and, on the streaming path, both refs are cleared. *)
Theorem sendMessage_failure_reported (b : Backend) (s : St) (e : jsval) :
  WF s -> isGenerating s = false -> truthy (trim (input s)) = true ->
  (forall l, In l (listeners s) -> fst l < next_handle s) ->
  (streamingEnabled s = true
   /\ (b_listen_stream b = Thrown e
       \/ (b_listen_stream b = Ok tt /\ b_listen_done b = Thrown e)
       \/ (b_listen_stream b = Ok tt /\ b_listen_done b = Ok tt /\ b_run_stream b = Thrown e))
   \/ streamingEnabled s = false /\ b_run_llm b = Thrown e) ->
  let s' := fst (sendMessage b s) in
  snd (sendMessage b s) = Ok tt
  /\ items (messages s') = items (messages s) ++ [mkMessage (trim (input s)) (Some (error_text e))]
  /\ isGenerating s' = false
  /\ (forall l, In l (listeners s') -> fst l < next_handle s)
  /\ (streamingEnabled s = true -> unlistenStreamRef s' = None /\ unlistenDoneRef s' = None).
Proof.
  intros Hwf Hg Ht Hls Hcase. cbv zeta. unfold sendMessage.
  rewrite Hg, Ht. cbn [negb orb].
  match goal with |- context [setMessages ?f s] => set (g := f) end.
  set (pre := items (messages s)). set (u := trim (input s)). set (n0 := next_handle s).
  rewrite (setMessages_fresh g s
             (pre ++ [mkMessage u (Some (if streamingEnabled s then [] else js "Typing..."))]) Hwf)
    by reflexivity.
  set (s0 := setIsGenerating true (setInput [] _)).
  assert (I0 : Inv n0 pre u s0).
  { split; [unfold WF; simpl; lia|]. split; [eexists; reflexivity|].
    intros l Hin. left. exact (Hls l Hin). }
  assert (N0 : next_handle s0 = n0) by reflexivity.
  destruct Hcase as [(Hs & Hf) | (Hs & Hf)]; rewrite Hs; cbn [negb].
  - assert (Fin : forall s3, Inv n0 pre u s3 ->
              let s' := catch_stream e s3 in
              items (messages s') = pre ++ [mkMessage u (Some (error_text e))]
              /\ isGenerating s' = false
              /\ (forall l, In l (listeners s') -> fst l < n0)
              /\ (true = true -> unlistenStreamRef s' = None /\ unlistenDoneRef s' = None)).
    { intros s3 H3. cbv zeta.
      destruct (catch_stream_report n0 pre u e s3 H3) as (A & B & C & D & E).
      repeat split; auto. }
    destruct Hf as [H1 | [(H1 & H2) | (H1 & H2 & H3)]].
    + rewrite H1. cbn [listen fst snd]. split; [reflexivity|]. exact (Fin s0 I0).
    + destruct (Inv_listen n0 pre u ChStream s0 (Some (next_handle s0)) (unlistenDoneRef s0) I0)
        as (s1 & L1 & I1 & N1 & _ & _ & D1 & _).
      { intros l Hin. left. exact (Hls l Hin). }
      { left. reflexivity. }
      rewrite <- D1 in I1.
      rewrite H1, L1. cbn beta iota. rewrite H2. cbn [listen fst snd].
      split; [reflexivity|]. exact (Fin _ I1).
    + destruct (Inv_listen n0 pre u ChStream s0 (Some (next_handle s0)) (unlistenDoneRef s0) I0)
        as (s1 & L1 & I1 & N1 & _ & _ & D1 & LS1).
      { intros l Hin. left. exact (Hls l Hin). }
      { left. reflexivity. }
      rewrite <- D1 in I1.
      rewrite H1, L1. cbn beta iota. rewrite H2.
      set (s1' := setRefs (Some (next_handle s0)) (unlistenDoneRef s1) s1).
      destruct (Inv_listen n0 pre u ChComplete s1' (Some (next_handle s0)) (Some (next_handle s1')) I1)
        as (s2 & L2 & I2 & _ & _ & U2 & _ & _).
      { intros l Hin. unfold s1' in Hin. cbn [listeners setRefs] in Hin. rewrite LS1 in Hin.
        apply in_app_or in Hin. destruct Hin as [Hin|[<-|[]]].
        - left. exact (Hls l Hin).
        - right; left; reflexivity. }
      { right. reflexivity. }
      rewrite L2. cbn beta iota. rewrite U2. cbn [setRefs unlistenStreamRef].
      rewrite H3. split; [reflexivity|].
      apply Fin. apply Inv_events. exact I2.
  - rewrite Hf. cbn [fst snd]. split; [reflexivity|].
    assert (Ne : items (messages s0) <> []) by apply snoc_nonempty.
    destruct (set_last_ai_fresh (error_text e) s0 (proj1 I0) Ne) as [Hi _].
    destruct (setMessages_fields (set_last_ai (error_text e)) s0) as (_ & _ & L & _).
    cbn [setIsGenerating messages listeners isGenerating].
    split; [rewrite Hi; cbn [messages items s0 setIsGenerating setInput];
            rewrite set_last_snoc, last_snoc; reflexivity|].
    split; [reflexivity|]. split; [|intros Hc; congruence].
    intros l Hin. rewrite L in Hin. exact (Hls l Hin).
Qed.

Lemma sendMessage_failure_reported_witness :
  let b := mkBackend (Ok tt) (Thrown (JsError (js "Error") (js "boom"))) [] (Ok tt) (Ok []) in
  let s := init_st (js " hi ") true in
  snd (sendMessage b s) = Ok tt
  /\ items (messages (fst (sendMessage b s))) = [mkMessage (js "hi") (Some (js "[ERROR] Error: boom"))]
  /\ unlistenStreamRef (fst (sendMessage b s)) = None.
Proof.
  cbv zeta.
  destruct (sendMessage_failure_reported
              (mkBackend (Ok tt) (Thrown (JsError (js "Error") (js "boom"))) [] (Ok tt) (Ok []))
              (init_st (js " hi ") true) (JsError (js "Error") (js "boom")))
    as (A & B & _ & _ & R).
  - unfold WF; simpl; lia.
  - reflexivity.
  - reflexivity.
  - intros l [].
  - left. split; [reflexivity|]. right. left. split; reflexivity.
  - split; [exact A|]. split; [rewrite B; vm_compute; reflexivity|].
    exact (proj1 (R eq_refl)).
Defined.

(* ------------------------------------------------------------------ *)
(** *** The tag parser *)

Lemma index_from_first (pat s : jstr) (i j : nat) :
  prefixb pat (skipn j s) = true ->
  (forall j', j' < j -> prefixb pat (skipn j' s) = false) ->
  index_from pat s i = Some (i + j).
Proof.
  revert s i. induction j as [|j IH]; intros s i Hj Hbefore.
  - rewrite Nat.add_0_r. cbn [skipn] in Hj. destruct s; cbn [index_from]; rewrite Hj; reflexivity.
  - pose proof (Hbefore 0 ltac:(lia)) as H0. simpl in H0.
    destruct s as [|c t].
    + destruct pat; simpl in *; congruence.
    + simpl. rewrite H0. rewrite (IH t (S i)); [f_equal; lia| exact Hj|].
      intros j' Hj'. exact (Hbefore (S j') ltac:(lia)).
Qed.

Lemma index_from_none (pat s : jstr) (i : nat) :
  (forall j, prefixb pat (skipn j s) = false) -> index_from pat s i = None.
Proof.
  revert i. induction s as [|c t IH]; intros i H.
  - pose proof (H 0) as H0. cbn [skipn] in H0. cbn [index_from]. rewrite H0. reflexivity.
  - pose proof (H 0) as H0. cbn [skipn] in H0. cbn [index_from]. rewrite H0.
    apply IH. intros j. exact (H (S j)).
Qed.

Lemma skipn_app_len (x y : jstr) (n : nat) : skipn (length x + n) (x ++ y) = skipn n y.
Proof. induction x; simpl; auto. Qed.

Lemma firstn_app_len (x y : jstr) : firstn (length x) (x ++ y) = x.
Proof. induction x; simpl; f_equal; auto. Qed.

Lemma length_OPEN : length OPEN = 7.
Proof. reflexivity. Qed.

Lemma length_CLOSE : length CLOSE = 8.
Proof. reflexivity. Qed.

Lemma skipn_app_exact (x y : jstr) : skipn (length x) (x ++ y) = y.
Proof. rewrite <- (Nat.add_0_r (length x)), skipn_app_len. reflexivity. Qed.

Lemma prefixb_app (p z : jstr) : prefixb p (p ++ z) = true.
Proof. apply prefixb_starts, starts_app_l. Qed.

(** The first open-marker of [A ++ OPEN ++ B] is the one after [A]. *)
Lemma indexOf_first_OPEN (A B : jstr) :
  (forall j, j < length A -> prefixb OPEN (skipn j (A ++ OPEN ++ B)) = false) ->
  indexOf (A ++ OPEN ++ B) OPEN 0 = Some (length A).
Proof.
  intros H. unfold indexOf. cbn [skipn].
  apply (index_from_first OPEN _ 0 (length A)); [|exact H].
  rewrite skipn_app_exact. apply prefixb_app.
Qed.

Lemma skipn_after_OPEN (A B : jstr) :
  skipn (length A + length OPEN) (A ++ OPEN ++ B) = B.
Proof. rewrite skipn_app_len, skipn_app_exact. reflexivity. Qed.

Lemma slice_before (A B : jstr) : slice (A ++ B) 0 (length A) = A.
Proof. unfold slice. rewrite Nat.sub_0_r. cbn [skipn]. apply firstn_app_len. Qed.

(** C5 (amended).  The parse follows the first open-marker.  Without one,
    the visible text is the input with markers stripped (not trimmed), there
    is no reasoning and the state is closed.  With the first open-marker
    after [A] and no close-marker in the rest [B], the reasoning is [B] with
    nested markers removed and trimmed, the visible text is [A] with markers
    stripped and trimmed, and the state is open.  With the first close-marker
    of [B] after [M] and rest [R], the reasoning is [M] cleaned and trimmed,
    the visible text is [A ++ R] with markers stripped and trimmed (later
    markers in [R] open no further block), and the state is closed; so
    ["prefix<think>partial"] parses to visible ["prefix"], reasoning
    ["partial"], open. *)
Theorem extractThinkStreaming_cases (s : jstr) :
  ((forall j, prefixb OPEN (skipn j s) = false) ->
     extractThinkStreaming s = mkParse None (stripThinkTags s) false)
  /\ (forall A B, s = A ++ OPEN ++ B ->
       (forall j, j < length A -> prefixb OPEN (skipn j s) = false) ->
       ((forall j, prefixb CLOSE (skipn j B) = false) ->
          extractThinkStreaming s
          = mkParse (Some (trim (clean_think B))) (trim (stripThinkTags A)) true)
       /\ (forall M R, B = M ++ CLOSE ++ R ->
             (forall j, j < length M -> prefixb CLOSE (skipn j B) = false) ->
             extractThinkStreaming s
             = mkParse (Some (trim (clean_think M))) (trim (stripThinkTags (A ++ R))) false))
  /\ extractThinkStreaming (js "prefix<think>partial")
     = mkParse (Some (js "partial")) (js "prefix") true.
Proof.
  split; [|split].
  - intros H. unfold extractThinkStreaming, indexOf. cbn [skipn].
    rewrite (index_from_none OPEN s 0 H). reflexivity.
  - intros A B -> Hfirst.
    unfold extractThinkStreaming. rewrite (indexOf_first_OPEN A B Hfirst).
    cbv iota. unfold indexOf. rewrite (skipn_after_OPEN A B).
    split.
    + intros Hnc. rewrite (index_from_none CLOSE B _ Hnc).
      rewrite slice_before. reflexivity.
    + intros M R -> Hc.
      rewrite (index_from_first CLOSE (M ++ CLOSE ++ R) _ (length M)).
      * cbv iota. rewrite slice_before. unfold slice.
        replace (length A + length OPEN + length M - (length A + length OPEN))
          with (length M) by lia.
        rewrite (skipn_after_OPEN A (M ++ CLOSE ++ R)), firstn_app_len.
        replace (length A + length OPEN + length M + length CLOSE)
          with (length A + (length OPEN + (length M + length CLOSE))) by lia.
        rewrite skipn_app_len, skipn_app_len, skipn_app_len, skipn_app_exact.
        reflexivity.
      * rewrite skipn_app_exact. apply prefixb_app.
      * exact Hc.
  - vm_compute. reflexivity.
Qed.

(** C5 as stated fails: the reasoning is trimmed and cleaned of nested
    open-markers, so it is not the text strictly between the markers. *)
Lemma extractThinkStreaming_trims_reasoning :
  think (extractThinkStreaming (js "<think> a </think>")) = Some (js "a")
  /\ think (extractThinkStreaming (js "<think> a </think>")) <> Some (js " a ")
  /\ think (extractThinkStreaming (js "<think><think>a</think>")) = Some (js "a").
Proof. vm_compute. split; [reflexivity|split; [discriminate|reflexivity]]. Qed.









(* ------------------------------------------------------------------ *)
(** *** Resolution of the active model *)

Lemma byId_has_In (lst : list ModelEntry) (k : jstr) :
  byId_has lst k = true <-> In k (map id lst).
Proof.
  unfold byId_has. rewrite existsb_exists, in_map_iff. split.
  - intros (m & Hin & Heq). apply jstr_eqb_true in Heq. eauto.
  - intros (m & Heq & Hin). exists m. split; [exact Hin|]. apply jstr_eqb_true. exact Heq.
Qed.

Lemma byId_get_fold_absent (l : list ModelEntry) (k : jstr) (acc : option ModelEntry) :
  byId_has l k = false ->
  fold_left (fun acc m => if jstr_eqb (id m) k then Some m else acc) l acc = acc.
Proof.
  revert acc. induction l as [|m l IH]; intros acc H; [reflexivity|].
  cbn [byId_has existsb] in H. apply orb_false_iff in H. destruct H as [H1 H2].
  cbn [fold_left]. rewrite H1. apply IH. exact H2.
Qed.

Lemma byId_get_has (lst : list ModelEntry) (k : jstr) :
  byId_has lst k = true -> exists m, byId_get lst k = Some m /\ In m lst /\ id m = k.
Proof.
  unfold byId_get. generalize (@None ModelEntry). revert lst.
  induction lst as [|m l IH]; intros acc H; [discriminate|].
  cbn [fold_left].
  destruct (byId_has l k) eqn:Hl.
  - destruct (IH (if jstr_eqb (id m) k then Some m else acc) eq_refl) as (m' & E & Hin & Hid).
    exists m'. split; [exact E|]. split; [right; exact Hin|exact Hid].
  - cbn [byId_has existsb] in H. unfold byId_has in Hl. rewrite Hl, orb_false_r in H.
    rewrite H, byId_get_fold_absent by exact Hl. exists m.
    split; [reflexivity|]. split; [left; reflexivity|]. apply jstr_eqb_true. exact H.
Qed.

Lemma find_first {A : Type} (f : A -> bool) (pre post : list A) (x : A) :
  (forall y, In y pre -> f y = false) -> f x = true -> find f (pre ++ x :: post) = Some x.
Proof.
  intros Hpre Hx. induction pre as [|y pre IH]; cbn [app find].
  - rewrite Hx. reflexivity.
  - rewrite (Hpre y (or_introl eq_refl)). apply IH. intros z Hz. apply Hpre. right. exact Hz.
Qed.

Lemma find_absent {A : Type} (f : A -> bool) (l : list A) :
  (forall y, In y l -> f y = false) -> find f l = None.
Proof.
  intros H. induction l as [|y l IH]; [reflexivity|]. cbn [find].
  rewrite (H y (or_introl eq_refl)). apply IH. intros z Hz. apply H. right. exact Hz.
Qed.

Lemma pick_model_some (lst : list ModelEntry) (a : option jstr) (r : list jstr) :
  lst <> [] -> pick_model lst a r <> None.
Proof.
  intros Hne. destruct lst as [|m0 l]; [congruence|]. unfold pick_model. cbv zeta.
  assert (Hfb : match find (byId_has (m0 :: l)) r with
                | Some r0 => if truthy r0 then match byId_get (m0 :: l) r0 with
                                              | Some m => Some m | None => hd_error (m0 :: l) end
                             else hd_error (m0 :: l)
                | None => hd_error (m0 :: l) end <> None).
  { destruct (find _ r); [|discriminate]. destruct (truthy _); [|discriminate].
    destruct (byId_get _ _); discriminate. }
  destruct a as [x|]; [|exact Hfb].
  destruct (truthy x && byId_has (m0 :: l) x) eqn:E; [|exact Hfb].
  apply andb_prop in E. destruct (byId_get_has _ x (proj2 E)) as (m & -> & _). discriminate.
Qed.

Lemma refresh_selected (mb : ModelsBackend) (st : Store) (lst : list ModelEntry)
  (a : option jstr) :
  mb_list mb = Ok lst -> lst <> [] -> mb_active mb = Ok a ->
  selectedModel (refresh mb st) = pick_model lst a (loadRecentIds (stored st)).
Proof.
  intros Hl Hne Ha. pose proof (pick_model_some lst a (loadRecentIds (stored st)) Hne) as Hs.
  unfold refresh. rewrite Hl. destruct lst as [|m0 l]; [congruence|].
  rewrite Ha. cbn [set_models set_loading_error stored].
  destruct (pick_model (m0 :: l) a (loadRecentIds (stored st))); [reflexivity|congruence].
Qed.

(** C6 (code bug).  After [refresh] over a catalog [lst] that loads: an
    empty catalog selects nothing; when the active-model query answers, the
    selection is (a) an entry with the backend's active id when that id is
    non-empty and in the catalog, else (b) an entry with the first persisted
    recency id found in the catalog when that id is non-empty, else (c) the
    first catalog entry, also when that first id found is empty; with
    catalog [A,B,C], persisted recency [B,Z] and no active id, B is
    selected.  But a failing active-model query is not treated as no active
    id: the catch clause of [refresh] selects nothing and clears the
    catalog, so for catalog [A] with persisted recency [A] nothing is
    selected, where an answer of no active id selects A. *)
Theorem refresh_resolves_active (mb : ModelsBackend) (st : Store) (lst : list ModelEntry) :
  mb_list mb = Ok lst ->
  let sel := selectedModel (refresh mb st) in
  let ids := map id lst in
  let recent := loadRecentIds (stored st) in
  (lst = [] -> sel = None)
  /\ (forall e, mb_active mb = Thrown e -> sel = None /\ models (refresh mb st) = [])
  /\ (forall a, mb_active mb = Ok a -> lst <> [] ->
       (forall x, a = Some x -> x <> [] -> In x ids ->
          exists m, sel = Some m /\ In m lst /\ id m = x)
       /\ ((a = None \/ a = Some [] \/ exists x, a = Some x /\ ~ In x ids) ->
            (forall pre x post, recent = pre ++ x :: post ->
               (forall y, In y pre -> ~ In y ids) -> In x ids -> x <> [] ->
               exists m, sel = Some m /\ In m lst /\ id m = x)
            /\ ((forall y, In y recent -> ~ In y ids) -> sel = hd_error lst)
            /\ (forall pre post, recent = pre ++ [] :: post ->
                  (forall y, In y pre -> ~ In y ids) -> In [] ids -> sel = hd_error lst)))
  /\ (let lA := [sample_entry (js "A")] in
      let stA := mount (JsonArray [JStr (js "A")]) true in
      selectedModel (refresh (backend_of lA (Thrown (JsError (js "Error") (js "offline")))) stA)
      = None
      /\ models (refresh (backend_of lA (Thrown (JsError (js "Error") (js "offline")))) stA) = []
      /\ selectedModel (refresh (backend_of lA (Ok None)) stA) = Some (sample_entry (js "A")))
  /\ selectedModel
       (refresh (backend_of (map sample_entry [js "A"; js "B"; js "C"]) (Ok None))
          (mount (JsonArray [JStr (js "B"); JStr (js "Z")]) true))
     = Some (sample_entry (js "B")).
Proof.
  intros Hl. cbv zeta. split; [|split; [|split; [|split]]].
  - intros ->. unfold refresh. rewrite Hl. reflexivity.
  - intros e He. unfold refresh. rewrite Hl. destruct lst; [split; reflexivity|].
    rewrite He. split; reflexivity.
  - intros a Ha Hne. rewrite (refresh_selected mb st lst a Hl Hne Ha).
    assert (Fb : forall (pre : list jstr) x post,
               loadRecentIds (stored st) = pre ++ x :: post ->
               (forall y, In y pre -> ~ In y (map id lst)) -> In x (map id lst) -> x <> [] ->
               find (byId_has lst) (loadRecentIds (stored st)) = Some x
               /\ truthy x = true /\ exists m, byId_get lst x = Some m /\ In m lst /\ id m = x).
    { intros pre x post Hr Hpre Hx Hxne. rewrite Hr. split; [|split].
      - apply find_first; [|apply byId_has_In; exact Hx].
        intros y Hy. destruct (byId_has lst y) eqn:E; [|reflexivity].
        apply byId_has_In in E. exfalso. exact (Hpre y Hy E).
      - destruct x; [congruence|reflexivity].
      - apply byId_get_has, byId_has_In. exact Hx. }
    assert (Fc : (forall y, In y (loadRecentIds (stored st)) -> ~ In y (map id lst)) ->
                 find (byId_has lst) (loadRecentIds (stored st)) = None).
    { intros H. apply find_absent. intros y Hy.
      destruct (byId_has lst y) eqn:E; [|reflexivity].
      apply byId_has_In in E. exfalso. exact (H y Hy E). }
    unfold pick_model. cbv zeta. split.
    + intros x -> Hxne Hx.
      assert (Hh : byId_has lst x = true) by (apply byId_has_In; exact Hx).
      assert (Ht : truthy x = true) by (destruct x; [congruence|reflexivity]).
      rewrite Ht, Hh. cbn [andb]. exact (byId_get_has lst x Hh).
    + intros Habs.
      assert (Hact : match a with
                     | Some a0 => truthy a0 && byId_has lst a0
                     | None => false end = false).
      { destruct Habs as [->|[->|(x & -> & Hx)]]; [reflexivity|reflexivity|].
        destruct (byId_has lst x) eqn:E; [|apply andb_false_r].
        apply byId_has_In in E. contradiction. }
      assert (Hsel : forall (fb : option ModelEntry),
                 match a with
                 | Some a0 => if truthy a0 && byId_has lst a0 then byId_get lst a0 else fb
                 | None => fb end = fb).
      { intros fb. destruct a as [a0|]; [|reflexivity]. rewrite Hact. reflexivity. }
      rewrite Hsel. split.
      * intros pre x post Hr Hpre Hx Hxne.
        destruct (Fb pre x post Hr Hpre Hx Hxne) as (-> & -> & m & -> & Hm).
        exists m. split; [reflexivity|exact Hm].
      * split; [intros H; rewrite (Fc H); reflexivity|].
        intros pre post Hr Hpre Hx.
        assert (Fe : find (byId_has lst) (loadRecentIds (stored st)) = Some []).
        { rewrite Hr. apply find_first; [|apply byId_has_In; exact Hx].
          intros y Hy. destruct (byId_has lst y) eqn:E; [|reflexivity].
          apply byId_has_In in E. exfalso. exact (Hpre y Hy E). }
        rewrite Fe. reflexivity.
  - vm_compute. split; [reflexivity|split; reflexivity].
  - vm_compute. reflexivity.
Qed.

Lemma refresh_resolves_active_witness :
  let lst := map sample_entry [js "A"; js "B"; js "C"] in
  let mb := backend_of lst (Ok (Some (js "C"))) in
  mb_list mb = Ok lst
  /\ exists m, selectedModel (refresh mb (mount Absent true)) = Some m /\ id m = js "C".
Proof.
  cbv zeta. split; [reflexivity|].
  destruct (refresh_resolves_active
              (backend_of (map sample_entry [js "A"; js "B"; js "C"]) (Ok (Some (js "C"))))
              (mount Absent true) (map sample_entry [js "A"; js "B"; js "C"]) eq_refl)
    as (_ & _ & Ha & _).
  destruct (proj1 (Ha (Some (js "C")) eq_refl ltac:(discriminate)) (js "C") eq_refl
              ltac:(discriminate) ltac:(vm_compute; tauto)) as (m & E & _ & I).
  exists m. split; [exact E|exact I].
Defined.


(* ------------------------------------------------------------------ *)
(** *** The recency list *)

Lemma select_seq_snoc (ms : list ModelEntry) (m : ModelEntry) (st : Store) :
  select_seq (ms ++ [m]) st = select m (select_seq ms st).
Proof. unfold select_seq. rewrite fold_left_app. reflexivity. Qed.

Lemma select_seq_writable (ms : list ModelEntry) (st : Store) :
  storage_writable (select_seq ms st) = storage_writable st.
Proof.
  unfold select_seq. revert st. induction ms as [|m ms IH]; intros st; [reflexivity|].
  cbn [fold_left]. rewrite IH. reflexivity.
Qed.

Lemma filter_notin_snoc (xs : list jstr) (x : jstr) (L : list jstr) :
  filter (fun y => negb (jstr_eqb y x)) (filter (fun y => negb (existsb (jstr_eqb y) xs)) L)
  = filter (fun y => negb (existsb (jstr_eqb y) (xs ++ [x]))) L.
Proof.
  induction L as [|a L IH]; [reflexivity|]. cbn [filter].
  rewrite existsb_app. cbn [existsb]. rewrite orb_false_r.
  destruct (existsb (jstr_eqb a) xs); cbn [negb orb filter].
  - exact IH.
  - destruct (jstr_eqb a x); cbn [negb filter]; [exact IH|rewrite IH; reflexivity].
Qed.

Lemma select_seq_recent (b : blob) (w : bool) (ms : list ModelEntry) :
  recentIds (select_seq ms (mount b w))
  = undup (rev (map id ms))
    ++ filter (fun y => negb (existsb (jstr_eqb y) (map id ms))) (loadRecentIds b).
Proof.
  induction ms as [|m ms IH] using rev_ind.
  - cbn. induction (loadRecentIds b) as [|a L IHL]; [reflexivity|]. cbn. rewrite <- IHL. reflexivity.
  - rewrite select_seq_snoc. cbn [select recordRecent recentIds]. rewrite IH.
    rewrite map_app, rev_app_distr. cbn [map rev app undup]. f_equal.
    rewrite filter_app, filter_notin_snoc. reflexivity.
Qed.

Lemma select_seq_stored (b : blob) (ms : list ModelEntry) :
  ms <> [] ->
  stored (select_seq ms (mount b true)) = saveRecentIds (recentIds (select_seq ms (mount b true))).
Proof.
  destruct ms as [|m ms'] using rev_ind; [congruence|]. intros _.
  rewrite select_seq_snoc. pose proof (select_seq_writable ms' (mount b true)) as W.
  cbn [storage_writable mount] in W. unfold select, recordRecent. cbn. rewrite W. reflexivity.
Qed.

Lemma select_seq_refused (ms : list ModelEntry) (st : Store) :
  storage_writable st = false -> stored (select_seq ms st) = stored st.
Proof.
  unfold select_seq. revert st. induction ms as [|m ms IH]; intros st H; [reflexivity|].
  cbn [fold_left]. rewrite IH by exact H. unfold select, recordRecent. cbn. rewrite H.
  reflexivity.
Qed.

Lemma loadRecentIds_save (l : list jstr) : loadRecentIds (saveRecentIds l) = firstn MAX_RECENT l.
Proof.
  unfold loadRecentIds, saveRecentIds. generalize (firstn MAX_RECENT l).
  induction l0 as [|x t IH]; [reflexivity|]. cbn. rewrite IH. reflexivity.
Qed.

Lemma undup_In (l : list jstr) (y : jstr) : In y (undup l) -> In y l.
Proof.
  induction l as [|x t IH]; [tauto|]. cbn. intros [H|H]; [left; exact H|].
  apply filter_In in H. right. apply IH. tauto.
Qed.

Lemma undup_NoDup (l : list jstr) : NoDup (undup l).
Proof.
  induction l as [|x t IH]; [constructor|]. cbn. constructor.
  - intros H. apply filter_In in H. destruct H as [_ H].
    assert (E : jstr_eqb x x = true) by (apply jstr_eqb_true; reflexivity).
    rewrite E in H. discriminate.
  - apply NoDup_filter. exact IH.
Qed.

Lemma NoDup_firstn_jstr (n : nat) (l : list jstr) : NoDup l -> NoDup (firstn n l).
Proof.
  intros H. rewrite <- (firstn_skipn n l) in H. exact (NoDup_app_remove_r _ _ H).
Qed.

(** C7 (amended).  After [select] calls for the entries [ms] (oldest first)
    on a store mounted from any persisted blob [b], whether storage writes
    succeed ([w]) or not: the in-memory recency list is the selected ids
    newest first without repetition, followed by the loaded ids that were
    not selected (it is not capped).  When writes succeed, once something is
    selected the persisted list is the first 5 entries of that list; when
    they are refused, the persisted blob stays [b].  Both lists are free of
    duplicates when the loaded list is.  Selecting 6 distinct models from
    empty storage persists exactly the 5 newest ids, newest first. *)
Theorem select_recency (b : blob) (w : bool) (ms : list ModelEntry) :
  let st := select_seq ms (mount b w) in
  let xs := map id ms in
  recentIds st
  = undup (rev xs) ++ filter (fun y => negb (existsb (jstr_eqb y) xs)) (loadRecentIds b)
  /\ (if w then ms <> [] -> loadRecentIds (stored st) = firstn MAX_RECENT (recentIds st)
      else stored st = b)
  /\ (NoDup (loadRecentIds b) -> NoDup (recentIds st) /\ NoDup (loadRecentIds (stored st)))
  /\ loadRecentIds
       (stored (select_seq (map sample_entry [js "A"; js "B"; js "C"; js "D"; js "E"; js "F"])
                  (mount Absent true)))
     = [js "F"; js "E"; js "D"; js "C"; js "B"].
Proof.
  cbv zeta. pose proof (select_seq_recent b w ms) as R.
  split; [exact R|]. split; [|split].
  - destruct w.
    + intros Hne. rewrite (select_seq_stored b ms Hne). apply loadRecentIds_save.
    + apply select_seq_refused. reflexivity.
  - intros Hb.
    assert (N : NoDup (recentIds (select_seq ms (mount b w)))).
    { rewrite R. apply NoDup_app; [apply undup_NoDup|apply NoDup_filter; exact Hb|].
      intros a Ha Hf. apply undup_In, in_rev in Ha. apply filter_In in Hf.
      destruct Hf as [_ Hf].
      assert (E : existsb (jstr_eqb a) (map id ms) = true).
      { apply existsb_exists. exists a. split; [exact Ha|]. apply jstr_eqb_true. reflexivity. }
      rewrite E in Hf. discriminate. }
    split; [exact N|]. destruct w; [|rewrite select_seq_refused by reflexivity; exact Hb].
    destruct ms as [|m ms'].
    + exact Hb.
    + rewrite (select_seq_stored b (m :: ms')) by discriminate.
      rewrite loadRecentIds_save. apply NoDup_firstn_jstr. exact N.
  - vm_compute. reflexivity.
Qed.

(** C7 as stated fails: duplicates in a corrupt persisted list survive a
    selection, and the in-memory list grows past 5 entries. *)
Lemma select_keeps_stored_duplicates :
  loadRecentIds (stored (select (sample_entry (js "B"))
                           (mount (JsonArray [JStr (js "A"); JStr (js "A")]) true)))
  = [js "B"; js "A"; js "A"]
  /\ length (recentIds (select_seq (map sample_entry [js "A"; js "B"; js "C"; js "D"; js "E"; js "F"])
                          (mount Absent true))) = 6.
Proof. vm_compute. split; reflexivity. Qed.

(* ------------------------------------------------------------------ *)
(** *** Batch import *)

(** C8 fails through the [models] value captured by [importFromDialog]:
    in a batch where the middle file imports as [n] and the others fail,
    the catalog is refreshed, but a callback created while the catalog held
    [A] searches that stale catalog for [n], finds nothing and selects
    nothing more, so [A] stays selected; the same batch from a callback
    created over an empty catalog selects [n]. *)
Theorem importFromDialog_stale_catalog :
  let files := [js "/bad.gguf"; js "/n.gguf"; js "/bad2.gguf"] in
  let r := importFromDialog (Some files) [sample_entry (js "A")] import_backend
             (mount Absent true) in
  snd r = Ok tt
  /\ models (fst r) = [sample_entry (js "A"); sample_entry (js "n")]
  /\ selectedModel (fst r) = Some (sample_entry (js "A"))
  /\ selectedModel (fst (importFromDialog (Some files) [] import_backend (mount Absent true)))
     = Some (sample_entry (js "n")).
Proof. vm_compute. split; [reflexivity|split; [reflexivity|split; reflexivity]]. Qed.

(* ================================================================== *)
(** * Further properties of the code *)

(* ------------------------------------------------------------------ *)
(** ** Reconciliation *)

(** The reconciled text [prev + trimOverlap(prev, delta)] always ends with
    the whole incoming fragment: only a part of [delta] already at the end
    of [prev] is dropped. *)
Theorem trimOverlap_keeps_fragment_suffix (P F : jstr) :
  exists X, P ++ trimOverlap P F = X ++ F.
Proof.
  unfold trimOverlap, trimOverlap_w.
  destruct (negb (truthy P) || negb (truthy F)); [exists P; reflexivity|].
  cbv zeta.
  destruct (overlap_loop_spec (slice_last P 200) F
              (Nat.min (length (slice_last P 200)) (length F))) as (L & -> & Hle & Hm & _).
  destruct Hm as [->|[_ Hs]]; [exists P; reflexivity|].
  rewrite slice_last_slice_last in Hs by lia.
  exists (firstn (length P - L) P).
  rewrite <- (firstn_skipn L F) at 2. rewrite <- Hs.
  unfold slice_last. rewrite app_assoc, firstn_skipn. reflexivity.
Qed.

(** A fragment that repeats the whole committed text [P] before new text
    [X] (a cumulative re-send) contributes exactly [X], as long as [P] fits
    in the 200-unit window. *)
Theorem trimOverlap_cumulative (P X : jstr) :
  length P <= 200 -> trimOverlap P (P ++ X) = X.
Proof.
  intros Hle. unfold trimOverlap, trimOverlap_w.
  destruct P as [|p P']; [reflexivity|]. set (P := p :: P') in *.
  assert (Hw : slice_last P 200 = P).
  { unfold slice_last. replace (length P - 200) with 0 by lia. reflexivity. }
  replace (negb (truthy P) || negb (truthy (P ++ X))) with false by reflexivity.
  cbv beta iota zeta. rewrite Hw.
  replace (Nat.min (length P) (length (P ++ X))) with (length P) by (rewrite length_app; lia).
  destruct (overlap_loop_spec P (P ++ X) (length P)) as (L & -> & HL & _ & Hmax).
  assert (L = length P) as ->.
  { destruct (Nat.eq_dec L (length P)) as [E|NE]; [exact E|exfalso].
    apply (Hmax (length P)); [lia|].
    unfold slice_last. rewrite Nat.sub_diag, firstn_app_len. reflexivity. }
  apply skipn_app_exact.
Qed.

Lemma trimOverlap_cumulative_witness :
  length (js "Hello") <= 200
  /\ trimOverlap (js "Hello") (js "Hello" ++ js ", world") = js ", world".
Proof.
  assert (H : length (js "Hello") <= 200) by (cbn; lia).
  split; [exact H|]. exact (trimOverlap_cumulative _ _ H).
Defined.

(** A fragment that is empty or missing from the event payload
    ([e.payload?.delta ?? ""]) changes nothing, whatever listeners are
    registered. *)
Theorem deliver_empty_delta_noop (s : St) :
  deliver (StreamDelta None) s = s /\ deliver (StreamDelta (Some [])) s = s.
Proof.
  unfold deliver. generalize (listeners s) as ls.
  split; induction ls as [|l ls IH]; cbn [fold_left]; try reflexivity;
    destruct (snd l); exact IH.
Qed.

(** [safeUnlisten] on the same handle twice has the effect of one call:
    the second is a no-op rather than an error. *)
Theorem safeUnlisten_twice (u : option nat) (s : St) :
  safeUnlisten u (safeUnlisten u s) = safeUnlisten u s.
Proof.
  destruct u as [h|]; [|reflexivity]. apply safeUnlisten_absent, safeUnlisten_gone.
Qed.

(* ------------------------------------------------------------------ *)
(** ** Rendering helpers (ChatTranscript.tsx) *)

Lemma index_from_none_inv (pat s : jstr) (i : nat) :
  index_from pat s i = None -> forall j, prefixb pat (skipn j s) = false.
Proof.
  revert i. induction s as [|c t IH]; intros i H j.
  - cbn [index_from] in H. destruct (prefixb pat []) eqn:E; [discriminate|].
    destruct j; exact E.
  - cbn [index_from] in H. destruct (prefixb pat (c :: t)) eqn:E; [discriminate|].
    destruct j as [|j]; [exact E|]. exact (IH (S i) H j).
Qed.

Lemma replace_each_fuel_absent (f : nat) (m rep s : jstr) :
  (forall j, prefixb m (skipn j s) = false) -> replace_each_fuel f m rep s = s.
Proof.
  revert s. induction f as [|f IH]; intros s H; [reflexivity|].
  destruct s as [|c t]; [reflexivity|]. cbn [replace_each_fuel].
  rewrite (H 0 : prefixb m (c :: t) = false). f_equal. apply IH. intros j. exact (H (S j)).
Qed.

(** A text in which neither [<think>] nor [</think>] occurs is rendered by
    [stripThinkTags] exactly as it is. *)
Theorem stripThinkTags_plain_text (s : jstr) :
  indexOf s OPEN 0 = None -> indexOf s CLOSE 0 = None -> stripThinkTags s = s.
Proof.
  unfold indexOf. cbn [skipn]. intros H1 H2. unfold stripThinkTags, replace_each.
  rewrite (replace_each_fuel_absent _ OPEN [] s (index_from_none_inv _ _ _ H1)).
  apply replace_each_fuel_absent, (index_from_none_inv _ _ _ H2).
Qed.

Lemma stripThinkTags_plain_text_witness :
  let s := js "a < b and c > d" in
  indexOf s OPEN 0 = None /\ indexOf s CLOSE 0 = None /\ stripThinkTags s = s.
Proof.
  cbv zeta. assert (H1 : indexOf (js "a < b and c > d") OPEN 0 = None) by (vm_compute; reflexivity).
  assert (H2 : indexOf (js "a < b and c > d") CLOSE 0 = None) by (vm_compute; reflexivity).
  split; [exact H1|]. split; [exact H2|]. exact (stripThinkTags_plain_text _ H1 H2).
Defined.

(* ------------------------------------------------------------------ *)
(** ** The [recent] memo and the recency list (useModels.ts) *)

Lemma byId_get_fold_some (l : list ModelEntry) (k : jstr) (acc : option ModelEntry) m :
  fold_left (fun acc m => if jstr_eqb (id m) k then Some m else acc) l acc = Some m ->
  acc = Some m \/ (In m l /\ id m = k).
Proof.
  revert acc. induction l as [|x l IH]; intros acc H; [left; exact H|].
  cbn [fold_left] in H. destruct (IH _ H) as [Ha|[Hin Hk]].
  - destruct (jstr_eqb (id x) k) eqn:E; [|left; exact Ha].
    injection Ha as <-. right. split; [left; reflexivity|]. apply jstr_eqb_true, E.
  - right. split; [right; exact Hin|exact Hk].
Qed.

Lemma byId_get_some (l : list ModelEntry) (k : jstr) m :
  byId_get l k = Some m -> In m l /\ id m = k.
Proof.
  unfold byId_get. intros H. destruct (byId_get_fold_some l k None m H) as [H'|H'];
    [discriminate|exact H'].
Qed.

Lemma dedup_seen_spec (l : list ModelEntry) (seen : list jstr) :
  NoDup (map id (dedup_seen seen l))
  /\ forall m, In m (dedup_seen seen l) -> In m l /\ existsb (jstr_eqb (id m)) seen = false.
Proof.
  revert seen. induction l as [|x t IH]; intros seen; [split; [constructor|intros m []]|].
  cbn [dedup_seen]. destruct (existsb (jstr_eqb (id x)) seen) eqn:E.
  - destruct (IH seen) as [Hn Hi]. split; [exact Hn|].
    intros m Hm. destruct (Hi m Hm). split; [right|]; assumption.
  - destruct (IH (id x :: seen)) as [Hn Hi]. split.
    + cbn [map]. constructor; [|exact Hn].
      intros Hin. apply in_map_iff in Hin. destruct Hin as (m & Heq & Hm).
      destruct (Hi m Hm) as [_ Hs]. cbn [existsb] in Hs.
      rewrite Heq in Hs. assert (jstr_eqb (id x) (id x) = true) as T
        by (apply jstr_eqb_true; reflexivity).
      rewrite T in Hs. discriminate.
    + intros m [<-|Hm]; [split; [left; reflexivity|exact E]|].
      destruct (Hi m Hm) as [Hin Hs]. cbn [existsb] in Hs. apply orb_false_iff in Hs.
      split; [right; exact Hin|tauto].
Qed.

(** The [recent] list shown by the picker holds at most [MAX_RECENT]
    entries, never two with the same id, and each of its entries is the
    catalog's entry ([byId.get]) for an id of [recentIds]. *)
Theorem recent_memo_sound (ms : list ModelEntry) (ids : list jstr) :
  let r := recent_memo ms ids in
  length r <= MAX_RECENT /\ NoDup (map id r)
  /\ forall m, In m r -> In m ms /\ In (id m) ids /\ byId_get ms (id m) = Some m.
Proof.
  cbv zeta. unfold recent_memo.
  destruct ms as [|m0 ms']; [split; [cbn; lia|split; [constructor|intros m []]]|].
  destruct ids as [|i0 ids']; [split; [cbn; lia|split; [constructor|intros m []]]|].
  set (ms := m0 :: ms'). set (ids := i0 :: ids'). cbv zeta.
  set (ordered := flat_map _ ids).
  destruct (dedup_seen_spec ordered []) as [Hn Hi].
  split; [apply firstn_le_length|]. split.
  - rewrite <- firstn_map. apply NoDup_firstn_jstr, Hn.
  - intros m Hm.
    assert (Hm' : In m (dedup_seen [] ordered)).
    { rewrite <- (firstn_skipn MAX_RECENT (dedup_seen [] ordered)). apply in_app_iff. left; exact Hm. }
    apply Hi in Hm'. destruct Hm' as [Hm' _]. clear Hm. rename Hm' into Hm.
    unfold ordered in Hm. apply in_flat_map in Hm. destruct Hm as (i & Hi' & Hm).
    destruct (byId_get ms i) as [m'|] eqn:E; [|destruct Hm].
    destruct Hm as [<-|[]]. destruct (byId_get_some _ _ _ E) as [Hin Hk].
    split; [exact Hin|]. rewrite Hk. split; [exact Hi'|exact E].
Qed.

(** [recordRecent(id)] puts [id] first, keeps a list without repetitions
    free of them, and (when [localStorage] accepts the write) what a later
    [loadRecentIds()] reads back is the first [MAX_RECENT] ids of the new
    list; a refused write leaves the stored value as it was. *)
Theorem recordRecent_persists (x : jstr) (st : Store) :
  let st' := recordRecent x st in
  hd_error (recentIds st') = Some x /\ (NoDup (recentIds st) -> NoDup (recentIds st'))
  /\ (if storage_writable st then loadRecentIds (stored st') = firstn MAX_RECENT (recentIds st')
      else stored st' = stored st).
Proof.
  cbv zeta. unfold recordRecent. cbn [recentIds stored].
  split; [reflexivity|]. split.
  - intros Hnd. constructor.
    + intros H. apply filter_In in H. destruct H as [_ H].
      assert (jstr_eqb x x = true) as T by (apply jstr_eqb_true; reflexivity).
      rewrite T in H. discriminate.
    + apply NoDup_filter, Hnd.
  - destruct (storage_writable st); [apply loadRecentIds_save|reflexivity].
Qed.

Lemma recordRecent_persists_witness :
  let st := mount (JsonArray [JStr (js "a"); JStr (js "a")]) true in
  hd_error (recentIds (recordRecent (js "b") st)) = Some (js "b")
  /\ loadRecentIds (stored (recordRecent (js "b") st))
     = firstn MAX_RECENT (recentIds (recordRecent (js "b") st)).
Proof.
  cbv zeta.
  destruct (recordRecent_persists (js "b") (mount (JsonArray [JStr (js "a"); JStr (js "a")]) true))
    as (H & _ & P).
  exact (conj H P).
Defined.

(* ------------------------------------------------------------------ *)
(** ** [sendMessage] outside the failure paths *)

Lemma snoc_cons (pre : list Message) (x : Message) : exists p t, pre ++ [x] = p :: t.
Proof. destruct pre as [|p pre]; eexists _, _; reflexivity. Qed.

(** The answer of the non-streaming path, written into the last turn. *)
Lemma set_response_fresh (r : jstr) (s : St) (pre : list Message) (x : Message) :
  WF s -> items (messages s) = pre ++ [x] ->
  let s' := setMessages (fun prev fresh =>
              match items prev with
              | [] => (mkArr fresh [], S fresh)
              | out => (mkArr fresh (set_last out (with_ai (List.last out default_msg) r)),
                        S fresh)
              end) s in
  items (messages s') = pre ++ [with_ai x r] /\ WF s' /\ listeners s' = listeners s
  /\ unlistenStreamRef s' = unlistenStreamRef s /\ unlistenDoneRef s' = unlistenDoneRef s.
Proof.
  intros Hwf Hi. cbv zeta.
  rewrite (setMessages_fresh _ s (pre ++ [with_ai x r]) Hwf).
  - repeat split; try reflexivity. unfold WF; cbn; lia.
  - rewrite Hi. destruct (snoc_cons pre x) as (p & t & E). rewrite E.
    rewrite <- E, set_last_snoc, last_snoc. reflexivity.
Qed.

Lemma trim_nil_ws (x : jstr) : forallb is_ws x = true -> trim x = [].
Proof.
  intros H. unfold trim. assert (drop_ws x = []) as ->; [|reflexivity].
  induction x as [|c t IH]; [reflexivity|]. cbn [forallb] in H.
  apply andb_true_iff in H. destruct H as [Hc Ht]. cbn [drop_ws]. rewrite Hc. exact (IH Ht).
Qed.

(** A send with nothing but white space in the input, or while a reply is
    being generated, does nothing at all: the state is left as it was,
    whatever the backend would answer. *)
Theorem sendMessage_guard (b : Backend) (s : St) :
  forallb is_ws (input s) = true \/ isGenerating s = true -> sendMessage b s = (s, Ok tt).
Proof.
  intros [H|H]; unfold sendMessage.
  - rewrite (trim_nil_ws _ H). reflexivity.
  - rewrite H, orb_true_r. reflexivity.
Qed.

Lemma sendMessage_guard_witness :
  let s := init_st ([32; 9; 10; 32]%N) false in
  (forallb is_ws (input s) = true \/ isGenerating s = true) /\ sendMessage
    (mkBackend (Ok tt) (Ok tt) [] (Ok tt) (Ok (js "reply"))) s = (s, Ok tt).
Proof.
  cbv zeta.
  assert (H : forallb is_ws (input (init_st ([32; 9; 10; 32]%N) false)) = true \/
              isGenerating (init_st ([32; 9; 10; 32]%N) false) = true) by (left; vm_compute; reflexivity).
  split; [exact H|]. exact (sendMessage_guard _ _ H).
Defined.

(** On the non-streaming path, a send whose request succeeds with [r]
    resolves normally and leaves one new turn, the trimmed prompt answered
    by [r], after the earlier ones; the input is cleared, the generating
    flag is off again and the subscriptions and their refs are untouched. *)
Theorem sendMessage_plain_success (b : Backend) (s : St) (r : jstr) :
  WF s -> truthy (trim (input s)) = true -> isGenerating s = false ->
  streamingEnabled s = false -> b_run_llm b = Ok r ->
  let s' := fst (sendMessage b s) in
  snd (sendMessage b s) = Ok tt
  /\ items (messages s') = items (messages s) ++ [mkMessage (trim (input s)) (Some r)]
  /\ input s' = [] /\ isGenerating s' = false /\ listeners s' = listeners s
  /\ unlistenStreamRef s' = unlistenStreamRef s /\ unlistenDoneRef s' = unlistenDoneRef s.
Proof.
  intros Hwf Ht Hg Hs Hr. cbv zeta. unfold sendMessage.
  rewrite Ht, Hg, Hs, Hr. cbn [negb orb].
  match goal with |- context [setMessages ?f s] => set (g := f) end.
  set (pre := items (messages s)). set (u := trim (input s)).
  rewrite (setMessages_fresh g s (pre ++ [mkMessage u (Some (js "Typing..."))]) Hwf)
    by reflexivity.
  set (s0 := setIsGenerating true (setInput [] _)).
  destruct (set_response_fresh r s0 pre (mkMessage u (Some (js "Typing..."))))
    as (I & _ & L & R1 & R2); [unfold WF; cbn; lia|reflexivity|].
  cbn [fst snd]. split; [reflexivity|]. split; [exact I|].
  repeat split; [|exact L|exact R1|exact R2].
  unfold setIsGenerating. cbn [input].
  match goal with |- input (setMessages ?f ?s1) = [] => pose proof (setMessages_fields f s1) as F end.
  cbv zeta in F. destruct F as (_ & _ & _ & _ & _ & -> & _). reflexivity.
Qed.

Lemma sendMessage_plain_success_witness :
  let s := init_st (js "  hello ") false in
  let b := mkBackend (Ok tt) (Ok tt) [] (Ok tt) (Ok (js "hi there")) in
  WF s /\ truthy (trim (input s)) = true /\ isGenerating s = false
  /\ streamingEnabled s = false /\ b_run_llm b = Ok (js "hi there")
  /\ items (messages (fst (sendMessage b s)))
     = items (messages s) ++ [mkMessage (trim (input s)) (Some (js "hi there"))].
Proof.
  cbv zeta.
  assert (H1 : WF (init_st (js "  hello ") false)) by (vm_compute; lia).
  assert (H2 : truthy (trim (input (init_st (js "  hello ") false))) = true)
    by (vm_compute; reflexivity).
  split; [exact H1|]. split; [exact H2|]. split; [reflexivity|]. split; [reflexivity|].
  split; [reflexivity|].
  exact (proj1 (proj2 (sendMessage_plain_success
    (mkBackend (Ok tt) (Ok tt) [] (Ok tt) (Ok (js "hi there"))) _ _ H1 H2
    eq_refl eq_refl eq_refl))).
Defined.

(** A delta leaves the subscriptions and the refs as they are. *)
Lemma deliver_delta_frame (n0 : nat) (pre : list Message) (u : jstr) (d : option jstr) (s : St) :
  Inv n0 pre u s ->
  let s' := deliver (StreamDelta d) s in
  Inv n0 pre u s' /\ listeners s' = listeners s
  /\ unlistenStreamRef s' = unlistenStreamRef s /\ unlistenDoneRef s' = unlistenDoneRef s.
Proof.
  cbv zeta. unfold deliver. generalize (listeners s) at 1 2 4 5. intros ls. revert s.
  induction ls as [|l ls IH]; intros s H; [split; [exact H|auto]|].
  cbn [fold_left]. destruct (snd l); [|exact (IH s H)].
  destruct H as (Hwf & (a & Ha) & Hl) eqn:HI.
  assert (Hne : items (messages s) <> []) by (rewrite Ha; apply snoc_nonempty).
  destruct (appendDelta_frame s (match d with Some x => x | None => [] end) Hwf Hne)
    as (_ & L & U1 & U2).
  destruct (IH _ (Inv_appendDelta n0 pre u s (match d with Some x => x | None => [] end) H))
    as (I & L' & U1' & U2').
  rewrite L', U1', U2', L, U1, U2. split; [exact I|auto].
Qed.

Lemma deliver_deltas_frame (n0 : nat) (pre : list Message) (u : jstr) (ds : list (option jstr))
  (s : St) :
  Inv n0 pre u s ->
  let s' := fold_left (fun st ev => deliver ev st) (map StreamDelta ds) s in
  Inv n0 pre u s' /\ listeners s' = listeners s
  /\ unlistenStreamRef s' = unlistenStreamRef s /\ unlistenDoneRef s' = unlistenDoneRef s.
Proof.
  cbv zeta. revert s. induction ds as [|d ds IH]; intros s H; [split; [exact H|auto]|].
  cbn [map fold_left]. destruct (deliver_delta_frame n0 pre u d s H) as (I & L & U1 & U2).
  destruct (IH _ I) as (I' & L' & U1' & U2'). rewrite L', U1', U2', L, U1, U2.
  split; [exact I'|auto].
Qed.

Lemma deliver_no_listeners (evs : list event) (s : St) :
  listeners s = [] -> fold_left (fun st ev => deliver ev st) evs s = s.
Proof.
  intros H. induction evs as [|ev evs IH]; [reflexivity|]. cbn [fold_left].
  assert (deliver ev s = s) as -> by (unfold deliver; rewrite H; reflexivity). exact IH.
Qed.

(** On the streaming path, with no subscription left over from earlier
    sends, a send whose subscriptions and stream request succeed, and
    during which the backend pushes some deltas and then the completion
    with a non-empty final text [t] (and possibly more events after it),
    resolves normally with one new turn, the trimmed prompt answered by
    [t]; the generating flag is off, both refs are cleared and no
    subscription is left. *)
Theorem sendMessage_stream_success (b : Backend) (s : St) (ds : list (option jstr))
  (t : jstr) (post : list event) :
  WF s -> truthy (trim (input s)) = true -> isGenerating s = false ->
  streamingEnabled s = true -> listeners s = [] ->
  b_listen_stream b = Ok tt -> b_listen_done b = Ok tt -> b_run_stream b = Ok tt ->
  b_events b = map StreamDelta ds ++ StreamComplete (Some t) :: post -> truthy t = true ->
  let s' := fst (sendMessage b s) in
  snd (sendMessage b s) = Ok tt
  /\ items (messages s') = items (messages s) ++ [mkMessage (trim (input s)) (Some t)]
  /\ isGenerating s' = false /\ listeners s' = []
  /\ unlistenStreamRef s' = None /\ unlistenDoneRef s' = None.
Proof.
  intros Hwf Ht Hg Hs Hl0 H1 H2 H3 Hev Htt. cbv zeta. unfold sendMessage.
  rewrite Ht, Hg, Hs. cbn [negb orb].
  match goal with |- context [setMessages ?f s] => set (g := f) end.
  set (pre := items (messages s)). set (u := trim (input s)). set (n0 := next_handle s).
  rewrite (setMessages_fresh g s (pre ++ [mkMessage u (Some [])]) Hwf)
    by reflexivity.
  set (s0 := setIsGenerating true (setInput [] _)).
  assert (I0 : Inv n0 pre u s0).
  { split; [unfold WF; simpl; lia|]. split; [eexists; reflexivity|].
    intros l Hin. cbn in Hin. rewrite Hl0 in Hin. destruct Hin. }
  assert (L0 : listeners s0 = []) by exact Hl0.
  destruct (Inv_listen n0 pre u ChStream s0 (Some (next_handle s0)) (unlistenDoneRef s0) I0)
    as (s1 & E1 & I1 & N1 & _ & _ & D1 & LS1).
  { intros l Hin. rewrite L0 in Hin. destruct Hin. }
  { left. reflexivity. }
  rewrite <- D1 in I1.
  rewrite H1, E1. cbn beta iota. rewrite H2.
  set (s1' := setRefs (Some (next_handle s0)) (unlistenDoneRef s1) s1).
  destruct (Inv_listen n0 pre u ChComplete s1' (Some (next_handle s0)) (Some (next_handle s1')) I1)
    as (s2 & E2 & I2 & _ & _ & U2 & _ & LS2).
  { intros l Hin. unfold s1' in Hin. cbn [listeners setRefs] in Hin. rewrite LS1, L0 in Hin.
    destruct Hin as [<-|[]]. right; left; reflexivity. }
  { right. reflexivity. }
  rewrite E2. cbn beta iota. rewrite U2. cbn [setRefs unlistenStreamRef].
  rewrite H3, Hev, fold_left_app. cbn [fold_left fst snd].
  set (s2' := setRefs (unlistenStreamRef s1') (Some (next_handle s1')) s2).
  assert (L2 : listeners s2' = [(n0, ChStream); (S n0, ChComplete)]).
  { unfold s2'. cbn [setRefs listeners]. rewrite LS2. unfold s1'. cbn [setRefs listeners next_handle].
    rewrite LS1, L0, N1. reflexivity. }
  destruct (deliver_deltas_frame n0 pre u ds s2' I2) as (I3 & L3 & _ & _).
  set (s3 := fold_left _ (map StreamDelta ds) s2') in *.
  assert (C : deliver (StreamComplete (Some t)) s3 = onComplete t s3)
    by (unfold deliver; rewrite L3, L2; reflexivity).
  rewrite C.
  destruct (Inv_onComplete n0 pre u s3 t I3) as ((W4 & (a & A4) & _) & G & R1 & R2 & Hlt & Hi).
  destruct I3 as (W3 & (a3 & A3) & _).
  assert (Ne3 : items (messages s3) <> []) by (rewrite A3; apply snoc_nonempty).
  destruct (onComplete_spec s3 t W3 Ne3) as (_ & _ & _ & _ & _ & _ & Sub & _).
  assert (L4 : listeners (onComplete t s3) = []).
  { destruct (listeners (onComplete t s3)) as [|l ls] eqn:E; [reflexivity|exfalso].
    assert (Hin : In l (l :: ls)) by (left; reflexivity).
    pose proof (Hlt l Hin) as Hl. apply Sub in Hin. rewrite L3, L2 in Hin.
    destruct Hin as [<-|[<-|[]]]; cbn in Hl; lia. }
  rewrite (deliver_no_listeners post _ L4).
  split; [reflexivity|]. split; [exact (Hi Htt)|]. repeat split; assumption.
Qed.

Lemma sendMessage_stream_success_witness :
  let s := init_st (js " hi ") true in
  let b := mkBackend (Ok tt) (Ok tt)
             ([StreamDelta (Some (js "Hel")); StreamDelta None; StreamDelta (Some (js "lo"))]
              ++ [StreamComplete (Some (js "Hello!")); StreamDelta (Some (js "late"))])
             (Ok tt) (Ok []) in
  WF s /\ truthy (trim (input s)) = true
  /\ items (messages (fst (sendMessage b s))) = [mkMessage (js "hi") (Some (js "Hello!"))].
Proof.
  cbv zeta.
  assert (W : WF (init_st (js " hi ") true)) by (unfold WF; simpl; lia).
  assert (T : truthy (trim (input (init_st (js " hi ") true))) = true) by (vm_compute; reflexivity).
  split; [exact W|]. split; [exact T|].
  destruct (sendMessage_stream_success
    (mkBackend (Ok tt) (Ok tt)
       ([StreamDelta (Some (js "Hel")); StreamDelta None; StreamDelta (Some (js "lo"))]
        ++ [StreamComplete (Some (js "Hello!")); StreamDelta (Some (js "late"))])
       (Ok tt) (Ok []))
    (init_st (js " hi ") true) [Some (js "Hel"); None; Some (js "lo")] (js "Hello!")
    [StreamDelta (Some (js "late"))] W T eq_refl eq_refl eq_refl eq_refl eq_refl eq_refl
    eq_refl eq_refl) as (_ & I & _).
  rewrite I. vm_compute. reflexivity.
Defined.

(* ------------------------------------------------------------------ *)
(** ** [newChat] *)

Lemma setMessages_bail (f : Updater) (s : St) :
  fst (f (messages s) (next_ref s)) = messages s -> setMessages f s = s.
Proof.
  unfold setMessages. destruct (f (messages s) (next_ref s)) as [a n]. cbn. intros ->.
  rewrite Nat.eqb_refl. reflexivity.
Qed.

Lemma appendDelta_empty (d : jstr) (s : St) :
  items (messages s) = [] -> appendDeltaToLast d s = s.
Proof.
  intros H. unfold appendDeltaToLast. destruct (negb (truthy d)); [reflexivity|].
  apply setMessages_bail. rewrite H. reflexivity.
Qed.

Lemma onComplete_empty (t : jstr) (s : St) :
  items (messages s) = [] -> messages (onComplete t s) = messages s.
Proof.
  intros H. unfold onComplete.
  assert (E : (if truthy t then setMessages (set_last_ai t) s else s) = s).
  { destruct (truthy t); [|reflexivity]. apply setMessages_bail.
    unfold set_last_ai. rewrite H. reflexivity. }
  rewrite E. set (s2 := setIsGenerating false s).
  destruct (safeUnlisten_fields (unlistenStreamRef s2) s2) as (M3 & _).
  destruct (safeUnlisten_fields (unlistenDoneRef (safeUnlisten (unlistenStreamRef s2) s2))
              (safeUnlisten (unlistenStreamRef s2) s2)) as (M4 & _).
  cbn [setRefs messages]. rewrite M4, M3. reflexivity.
Qed.

Lemma deliver_empty (evs : list event) (s : St) :
  items (messages s) = [] ->
  messages (fold_left (fun st ev => deliver ev st) evs s) = messages s.
Proof.
  revert s. induction evs as [|ev evs IH]; intros s H; [reflexivity|]. cbn [fold_left].
  assert (D : messages (deliver ev s) = messages s).
  { unfold deliver. generalize (listeners s) at 1. intros ls. revert s H.
    induction ls as [|l ls IHl]; intros s H; [reflexivity|]. cbn [fold_left].
    destruct ev as [d|t], (snd l); try exact (IHl s H).
    - rewrite appendDelta_empty by exact H. exact (IHl s H).
    - rewrite IHl; [apply onComplete_empty, H|]. rewrite onComplete_empty; exact H. }
  rewrite IH; [exact D|]. rewrite D. exact H.
Qed.

(** [newChat()] always commits a new, empty transcript and clears the
    input; stream events that still arrive afterwards for a reply in flight
    (its subscriptions are not removed) leave that transcript as it is:
    deltas and the final text of the old reply are dropped. *)
Theorem newChat_drops_late_events (s : St) (evs : list event) :
  WF s ->
  let s1 := newChat s in
  items (messages s1) = [] /\ input s1 = [] /\ msg_updates s1 = S (msg_updates s)
  /\ messages (fold_left (fun st ev => deliver ev st) evs s1) = messages s1.
Proof.
  intros Hwf. cbv zeta. unfold newChat.
  rewrite (setMessages_fresh _ s [] Hwf) by reflexivity.
  split; [reflexivity|]. split; [reflexivity|]. split; [reflexivity|].
  apply deliver_empty. reflexivity.
Qed.

Lemma newChat_drops_late_events_witness :
  let s := st_streaming (js "partial") in
  let evs := [StreamDelta (Some (js " answer")); StreamComplete (Some (js "partial answer"))] in
  WF s /\ items (messages (fold_left (fun st ev => deliver ev st) evs (newChat s))) = [].
Proof.
  cbv zeta. assert (W : WF (st_streaming (js "partial"))) by (unfold WF; simpl; lia).
  split; [exact W|].
  destruct (newChat_drops_late_events (st_streaming (js "partial"))
              [StreamDelta (Some (js " answer")); StreamComplete (Some (js "partial answer"))] W)
    as (E & _ & _ & M).
  rewrite M. exact E.
Defined.

(* ------------------------------------------------------------------ *)
(** ** [refresh] and [importFromDialog] (useModels.ts) *)

(** [refresh()] always ends with [loading] off.  It reports an error
    exactly when a backend query it needed failed (the catalog query, or
    the active-model query for a non-empty catalog), and then the catalog
    and the selection are cleared.  Otherwise any earlier error is cleared,
    the catalog is the one loaded, and a model is selected exactly when
    that catalog is non-empty. *)
Theorem refresh_status (mb : ModelsBackend) (st : Store) :
  let st' := refresh mb st in
  loading st' = false
  /\ (error st' = None <->
      exists lst, mb_list mb = Ok lst /\ (lst = [] \/ exists a, mb_active mb = Ok a))
  /\ (error st' <> None -> models st' = [] /\ selectedModel st' = None)
  /\ (forall lst, mb_list mb = Ok lst -> error st' = None ->
        models st' = lst /\ (selectedModel st' = None <-> lst = [])).
Proof.
  cbv zeta. unfold refresh.
  destruct (mb_list mb) as [lst|e] eqn:Hl.
  - destruct lst as [|m0 l].
    + cbn. split; [reflexivity|]. split.
      * split; [intros _; exists []; split; [reflexivity|left; reflexivity]|reflexivity].
      * split; [intros H; contradiction|]. intros lst E _. injection E as <-. tauto.
    + destruct (mb_active mb) as [a|e] eqn:Ha.
      * pose proof (pick_model_some (m0 :: l) a (loadRecentIds (stored st))) as Hs.
        destruct (pick_model (m0 :: l) a _) as [m|] eqn:Hp; [|exact (False_ind _ (Hs ltac:(discriminate) eq_refl))].
        cbn. split; [reflexivity|]. split.
        -- split; [intros _; exists (m0 :: l); split; [reflexivity|right; exists a; reflexivity]|reflexivity].
        -- split; [intros H; contradiction|]. intros lst E _. injection E as <-.
           split; [reflexivity|]. split; discriminate.
      * cbn. split; [reflexivity|]. split.
        -- split; [discriminate|]. intros (lst & E & [->|(a & Ea)]); [discriminate|discriminate].
        -- split; [split; reflexivity|]. intros lst _ H. discriminate.
  - cbn. split; [reflexivity|]. split.
    + split; [discriminate|]. intros (lst & E & _). discriminate.
    + split; [split; reflexivity|]. intros lst E. discriminate.
Qed.

Lemma import_fold_all_fail (mb : ModelsBackend) (files : list jstr) (acc : option jstr) :
  (forall f, In f files -> exists e, mb_import mb f = Thrown e) ->
  fold_left (fun acc srcPath =>
    match mb_import mb srcPath with
    | Ok entry => Some (id entry)
    | Thrown _ => acc
    end) files acc = acc.
Proof.
  revert acc. induction files as [|f files IH]; intros acc H; [reflexivity|].
  cbn [fold_left]. destruct (H f (or_introl eq_refl)) as (e & ->).
  apply IH. intros g Hg. apply H. right. exact Hg.
Qed.

Lemma import_fold_last (mb : ModelsBackend) (pre post : list jstr) (f : jstr)
  (entry : ModelEntry) (acc : option jstr) :
  mb_import mb f = Ok entry ->
  (forall g, In g post -> exists e, mb_import mb g = Thrown e) ->
  fold_left (fun acc srcPath =>
    match mb_import mb srcPath with
    | Ok entry => Some (id entry)
    | Thrown _ => acc
    end) (pre ++ f :: post) acc = Some (id entry).
Proof.
  intros Hf Hpost. rewrite fold_left_app. cbn [fold_left]. rewrite Hf.
  apply import_fold_all_fail, Hpost.
Qed.

(** A file dialog that is cancelled leaves the store alone; a batch in
    which every import fails only reloads the catalog, exactly as
    [refresh()] does, and resolves normally. *)
Theorem importFromDialog_nothing_imported (picked : option (list jstr))
  (mc : list ModelEntry) (mb : ModelsBackend) (st : Store) :
  (forall files, picked = Some files ->
     forall f, In f files -> exists e, mb_import mb f = Thrown e) ->
  importFromDialog picked mc mb st
  = (match picked with None => st | Some _ => refresh mb st end, Ok tt).
Proof.
  intros H. unfold importFromDialog. destruct picked as [files|]; [|reflexivity].
  rewrite (import_fold_all_fail mb files None (H files eq_refl)). reflexivity.
Qed.

Lemma importFromDialog_nothing_imported_witness :
  importFromDialog (Some [js "/a.gguf"; js "/b.bin"]) [] (backend_of [] (Ok None))
    (mount Absent true)
  = (refresh (backend_of [] (Ok None)) (mount Absent true), Ok tt).
Proof.
  apply (importFromDialog_nothing_imported (Some [js "/a.gguf"; js "/b.bin"])).
  intros files E f Hf. injection E as <-.
  exists (JsError (js "Error") (js "import failed")). reflexivity.
Defined.

(** When the callback was created over an empty catalog, a batch whose
    last successful import yields [entry] (with a non-empty id) ends by
    selecting the reloaded catalog's entry with that id, which then heads
    the recency list, provided the reload succeeds and lists that id; the
    promise resolves normally. *)
Theorem importFromDialog_selects_last_import (mb : ModelsBackend) (st : Store)
  (pre post : list jstr) (f : jstr) (entry : ModelEntry) (l : list ModelEntry) :
  mb_import mb f = Ok entry ->
  (forall g, In g post -> exists e, mb_import mb g = Thrown e) ->
  truthy (id entry) = true -> mb_list mb = Ok l -> In (id entry) (map id l) ->
  let '(st', r) := importFromDialog (Some (pre ++ f :: post)) [] mb st in
  r = Ok tt /\ hd_error (recentIds st') = Some (id entry)
  /\ exists m, selectedModel st' = Some m /\ In m l /\ id m = id entry.
Proof.
  intros Hf Hpost Ht Hl Hin. unfold importFromDialog.
  rewrite (import_fold_last mb pre post f entry None Hf Hpost), Ht, Hl.
  destruct (find (fun m => jstr_eqb (id m) (id entry)) l) as [m|] eqn:E.
  - apply find_some in E. destruct E as [Hm Hid]. apply jstr_eqb_true in Hid.
    split; [reflexivity|]. split; [unfold select, recordRecent; cbn [recentIds hd_error]; rewrite Hid; reflexivity|]. exists m. split; [reflexivity|].
    split; [exact Hm|]. exact Hid.
  - exfalso. apply in_map_iff in Hin. destruct Hin as (m & Hid & Hm).
    pose proof (find_none _ _ E m Hm) as N. cbn beta in N.
    rewrite Hid in N. assert (jstr_eqb (id entry) (id entry) = true) as T
      by (apply jstr_eqb_true; reflexivity). congruence.
Qed.

Lemma importFromDialog_selects_last_import_witness :
  let '(st', r) := importFromDialog (Some [js "/x.bin"; js "/n.gguf"; js "/y.onnx"]) []
                     import_backend (mount Absent true) in
  r = Ok tt /\ hd_error (recentIds st') = Some (js "n")
  /\ exists m, selectedModel st' = Some m /\ In m [sample_entry (js "A"); sample_entry (js "n")]
     /\ id m = id (sample_entry (js "n")).
Proof.
  apply (importFromDialog_selects_last_import import_backend (mount Absent true)
           [js "/x.bin"] [js "/y.onnx"] (js "/n.gguf") (sample_entry (js "n"))
           [sample_entry (js "A"); sample_entry (js "n")]).
  - reflexivity.
  - intros g [<-|[]]. exists (JsError (js "Error") (js "unsupported file")). reflexivity.
  - reflexivity.
  - reflexivity.
  - right. left. reflexivity.
Defined.

(** When the callback was created over an empty catalog and some import
    succeeded (with a non-empty id), a failing [getModelList()] for the
    final lookup makes the returned promise reject with that error, after
    the reload of [refresh()] has already recorded it in the store. *)
Theorem importFromDialog_lookup_failure (mb : ModelsBackend) (st : Store)
  (files : list jstr) (e : jsval) :
  (exists pre f post entry, files = pre ++ f :: post /\ mb_import mb f = Ok entry
     /\ truthy (id entry) = true
     /\ forall g, In g post -> exists e', mb_import mb g = Thrown e') ->
  mb_list mb = Thrown e ->
  importFromDialog (Some files) [] mb st = (refresh mb st, Thrown e)
  /\ error (refresh mb st) = Some (js_String e).
Proof.
  intros (pre & f & post & entry & -> & Hf & Ht & Hpost) Hl. split.
  - unfold importFromDialog.
    rewrite (import_fold_last mb pre post f entry None Hf Hpost), Ht, Hl. reflexivity.
  - unfold refresh. rewrite Hl. reflexivity.
Qed.

Lemma importFromDialog_lookup_failure_witness :
  let mb := mkModelsBackend (Thrown (JsError (js "Error") (js "db locked"))) (Ok None)
              (fun p => Ok (sample_entry p)) in
  importFromDialog (Some [js "/m.gguf"]) [] mb (mount Absent true)
  = (refresh mb (mount Absent true), Thrown (JsError (js "Error") (js "db locked"))).
Proof.
  cbv zeta.
  refine (proj1 (importFromDialog_lookup_failure
    (mkModelsBackend (Thrown (JsError (js "Error") (js "db locked"))) (Ok None)
       (fun p => Ok (sample_entry p)))
    (mount Absent true) [js "/m.gguf"] (JsError (js "Error") (js "db locked")) _ eq_refl)).
  exists [], (js "/m.gguf"), [], (sample_entry (js "/m.gguf")).
  split; [reflexivity|]. split; [reflexivity|]. split; [reflexivity|]. intros g [].
Defined.
